(** * smart-wait: cancellable delays and a retry wrapper

    A shallow embedding of [index.js].  The file has three parts:

    - [Js]: the JavaScript values the library creates and inspects
      (primitives, [Error] objects and the two error classes of the
      library, [TimeoutError] and [RetryError]);
    - [Retry]: the retry executor [waitWithRetry];
    - [Registry]: the process-wide map [activeTimeouts] together with the
      promises and timers its entries own, and the operations
      [waitWithId], [cancelWait], [updateWait], the firing of a timer and
      the ['exit'] handler.

    Numbers are modelled by [Z]: the model covers integer-valued numbers,
    on which doubling and incrementing are exact. *)

From stdpp Require Import gmap strings list fin_maps pretty.

Open Scope Z_scope.

(** ** JavaScript values *)

Module Js.

(** Fields of a [RetryError]; the cause is itself a value. *)
Record RetryErrorOf (V : Type) : Type := mkRetryError {
  re_message : string;
  re_name : string;
  cause : V;
  attempts : Z;
  finalDelay : Z
}.
Arguments mkRetryError {V}.
Arguments re_message {V}.
Arguments re_name {V}.
Arguments cause {V}.
Arguments attempts {V}.
Arguments finalDelay {V}.

(** Fields of a [TimeoutError]. *)
Record TimeoutErrorObj : Type := mkTimeoutError {
  te_message : string;
  te_name : string;
  code : string;
  te_id : string
}.

(** The values that flow through the library.  [VError name message] is
    an instance of [Error] (or of a subclass other than the library's
    own two); integers stand for numbers.  [VObject text] is an object
    that is not an error: [text] is what its conversion to a string
    gives, or [None] when it has none (an object without prototype). *)
#[warnings="-register-all"]
Inductive value : Type :=
| VUndefined
| VNull
| VBoolean (b : bool)
| VNumber (n : Z)
| VString (s : string)
| VSymbol (description : string)
| VObject (text : option string)
| VError (name message : string)
| VTimeoutError (e : TimeoutErrorObj)
| VRetryError (e : RetryErrorOf value).

Abbreviation RetryErrorObj := (RetryErrorOf value).

(** [v instanceof Error] *)
Definition instanceof_Error (v : value) : bool :=
  match v with
  | VError _ _ | VTimeoutError _ | VRetryError _ => true
  | _ => false
  end.

(** The [message] property of a value, when it is an error object. *)
Definition message (v : value) : option string :=
  match v with
  | VError _ m => Some m
  | VTimeoutError e => Some (te_message e)
  | VRetryError e => Some (re_message e)
  | _ => None
  end.

(** [Error.prototype.toString]: name and message joined by a colon, or
    the one that is not empty. *)
Definition Error_toString (name msg : string) : string :=
  if decide (name = "") then msg
  else if decide (msg = "") then name
  else name +:+ ": " +:+ msg.

(** What evaluating an expression gives: a result, or a thrown value. *)
Inductive evaluated (A : Type) : Type :=
| Done (a : A)
| Raised (e : value).
Arguments Done {A}.
Arguments Raised {A}.

(** A [TypeError] thrown by a built-in. *)
Definition TypeError (msg : string) : value := VError "TypeError" msg.



(** The abstract operation [ToString] on the values of the model.  It
    throws a [TypeError] for a symbol and for an object that cannot be
    converted to a primitive value.  An integer is printed by its
    decimal digits; see [safe_integer]. *)
Definition ToString (v : value) : evaluated string :=
  match v with
  | VUndefined => Done "undefined"
  | VNull => Done "null"
  | VBoolean true => Done "true"
  | VBoolean false => Done "false"
  | VNumber n => Done (pretty n)
  | VString s => Done s
  | VSymbol _ => Raised (TypeError "Cannot convert a Symbol value to a string")
  | VObject (Some s) => Done s
  | VObject None => Raised (TypeError "Cannot convert object to primitive value")
  | VError name msg => Done (Error_toString name msg)
  | VTimeoutError e => Done (Error_toString (te_name e) (te_message e))
  | VRetryError e => Done (Error_toString (re_name e) (re_message e))
  end.

(** [new Error(message)]: the built-in constructor stores
    [ToString message] as the [message] property unless the argument is
    [undefined]; then the property is inherited from [Error.prototype],
    where it is the empty string.  When [ToString] throws, so does the
    constructor. *)
Definition new_Error (msg : value) : evaluated value :=
  match msg with
  | VUndefined => Done (VError "Error" "")
  | _ =>
      match ToString msg with
      | Done s => Done (VError "Error" s)
      | Raised e => Raised e
      end
  end.

(** The values [new Error] accepts: all but symbols and objects without
    a conversion to a string. *)
Definition wrappable (v : value) : bool :=
  match v with
  | VSymbol _ | VObject None => false
  | _ => true
  end.

(** [x === s] for a string literal [s]. *)
Definition strict_equals_string (x : value) (s : string) : bool :=
  match x with
  | VString s' => bool_decide (s' = s)
  | _ => false
  end.

(** [class TimeoutError]: [super(reason || `Timeout ${id} cancelled`)].
    An omitted reason is [None]; the empty string is falsy as well. *)
Definition new_TimeoutError (id : string) (reason : option string) : TimeoutErrorObj :=
  {| te_message :=
       match reason with
       | Some r => if decide (r = "") then "Timeout " +:+ id +:+ " cancelled" else r
       | None => "Timeout " +:+ id +:+ " cancelled"
       end;
     te_name := "TimeoutError";
     code := "ETIMEOUT";
     te_id := id |}.

(** [class RetryError]: [new RetryError(originalError, attemptsMade,
    finalDelay)] throws when [new Error(originalError)] does. *)
Definition new_RetryError (originalError : value) (attemptsMade finalDelay : Z)
  : evaluated RetryErrorObj :=
  match (if instanceof_Error originalError then Done originalError
         else new_Error originalError) with
  | Done cause =>
      Done {| re_message := "Retry failed after " +:+ pretty attemptsMade +:+ " attempts";
              re_name := "RetryError";
              cause := cause;
              attempts := attemptsMade;
              finalDelay := finalDelay |}
  | Raised e => Raised e
  end.

(** How a call ends: it returns (a promise that fulfils with) a value,
    or it throws (returns a promise that rejects with) one. *)
Inductive outcome : Type :=
| Returned (v : value)
| Threw (e : value).

End Js.

Import Js.

(** ** The retry executor *)

Module Retry.

(** What [waitWithRetry] does to the outside world: it calls the
    operation, and it sleeps through [setTimeout(resolve, ms)]. *)
Inductive event : Type :=
| Invoke
| Sleep (ms : Z).

(** The durations of the sleeps of a trace, in order. *)
Fixpoint sleeps (tr : list event) : list Z :=
  match tr with
  | [] => []
  | Invoke :: tr' => sleeps tr'
  | Sleep ms :: tr' => ms :: sleeps tr'
  end.

(** The number of calls of the operation in a trace. *)
Fixpoint invocations (tr : list event) : nat :=
  match tr with
  | [] => 0
  | Invoke :: tr' => S (invocations tr')
  | Sleep _ :: tr' => invocations tr'
  end.

(** The second argument of [waitWithRetry]; an omitted property is
    [None] (or [VUndefined] for [backoff], which may hold any value). *)
Record options : Type := mkOptions {
  retries : option Z;
  delay : option Z;
  backoff : value
}.

(** [throw new RetryError(lastError, attemptsMade, finalDelay)]: what
    is thrown is the new error, or what its constructor throws. *)
Definition throw_RetryError (lastError : value) (attemptsMade finalDelay : Z) : outcome :=
  match new_RetryError lastError attemptsMade finalDelay with
  | Done e => Threw (VRetryError e)
  | Raised e => Threw e
  end.

Section Executor.

(** The operation [fn] is a closure over state of its own: a call
    takes that state to a new one and ends in an outcome. *)
Context {St : Type}.
Variable fn : St → outcome * St.

Section Loop.

Variable retries : Z.
Variable backoff : value.

(** The [while] loop of [waitWithRetry].  [fuel] bounds the number
    of iterations; the result is the outcome of the whole call, the
    state [fn] is left in, and the events from here on. *)
Fixpoint while_loop (fuel : nat) (attempt currentDelay : Z) (lastError : value)
    (s : St) : option (outcome * St * list event) :=
  if attempt <=? retries then
    match fuel with
    | O => None
    | S fuel' =>
        match fn s with
        | (Returned v, s') => Some (Returned v, s', [Invoke])
        | (Threw error, s') =>
            if attempt >=? retries then
              Some (throw_RetryError error (attempt + 1) currentDelay, s', [Invoke])
            else
              let currentDelay' :=
                if strict_equals_string backoff "exponential"
                then currentDelay * 2 else currentDelay in
              match while_loop fuel' (attempt + 1) currentDelay' error s' with
              | Some (o, s'', tr) => Some (o, s'', Invoke :: Sleep currentDelay' :: tr)
              | None => None
              end
        end
    end
  else
    Some (throw_RetryError lastError (attempt + 1) currentDelay, s, []).

End Loop.

(** [waitWithRetry(fn, { retries = 3, delay = 2000, backoff = 'fixed' } = {})] *)
Definition waitWithRetry (opts : options) (s : St)
  : option (outcome * St * list event) :=
  let retries := default 3 (retries opts) in
  let delay := default 2000 (delay opts) in
  let backoff := if backoff opts is VUndefined then VString "fixed"
                 else backoff opts in
  while_loop retries backoff (Z.to_nat (retries + 1)) 0 delay VUndefined s.

(** [n] invocations of the operation in a row, from the state [s]: how
    each one ends, and the state after the last. *)
Fixpoint calls (n : nat) (s : St) : list outcome * St :=
  match n with
  | O => ([], s)
  | S n' =>
      let '(o, s1) := fn s in
      let '(os, s2) := calls n' s1 in
      (o :: os, s2)
  end.


(** Started in [s], the operation succeeds on its [k]-th invocation:
    it fails [k - 1] times and then returns [v], leaving state
    [s_end]. *)
Fixpoint succeeds_on (k : nat) (s : St) (v : value) (s_end : St) : Prop :=
  match k with
  | O => False
  | 1%nat => fn s = (Returned v, s_end)
  | S k' => ∃ e s', fn s = (Threw e, s') ∧ succeeds_on k' s' v s_end
  end.

End Executor.

(** Two operations of the test suite, with the number of calls so far
    as their state: [() => Promise.reject(x)] and
    [() => ++attempts >= 3 ? 'success' : Promise.reject('retry')]. *)
Definition rejecting (x : value) (calls : nat) : outcome * nat :=
  (Threw x, S calls).

Definition third_time_lucky (attempts : nat) : outcome * nat :=
  let attempts := S attempts in
  if bool_decide (3 ≤ attempts)%nat then (Returned (VString "success"), attempts)
  else (Threw (VString "retry"), attempts).

(** The factor by which a failed, non-final attempt scales the delay. *)
Definition backoff_factor (backoff : value) : Z :=
  if strict_equals_string backoff "exponential" then 2 else 1.

(** The events of a run of [n + 1] failing attempts: the attempts, with
    the [i]-th sleep lasting [d * m ^ i]. *)
Definition failing_trace (m d : Z) (n : nat) : list event :=
  Invoke :: mjoin ((λ i : nat, [Sleep (d * m ^ Z.of_nat i); Invoke]) <$> seq 1 n).

(** The integers up to which the attempt counter counts exactly (see
    [safe_integer]) and below which a delay is a finite number, so that
    doubling it gives the double, not [Infinity]. *)
Definition countable (retries : Z) : Prop := retries < 2 ^ 53.

Definition finite (delay : Z) : Prop := Z.abs delay < 2 ^ 1024.

(** The time a run spends sleeping. *)
Definition total_sleep (tr : list event) : Z :=
  foldr Z.add 0 (sleeps tr).

End Retry.

(** ** The timeout registry *)

Module Registry.

(** A promise is pending until its [resolve] or [reject] is first
    called; later calls do nothing. *)
Inductive promise_state : Type :=
| Pending
| Fulfilled (v : value)
| Rejected (reason : value).

(** A timer is scheduled until it fires or is cleared. *)
Inductive timer_status : Type :=
| Scheduled
| Fired
| Cleared.

(** The [cleanup] closures of [waitWithId] and [updateWait] have the
    same body, [clearTimeout(timeout); activeTimeouts.delete(id)], over
    the two variables they capture. *)
Record cleanup_closure : Type := mkCleanup {
  cl_timeout : nat;
  cl_id : string
}.

(** An entry of [activeTimeouts].  A [TimeoutController] is its promise
    together with the [resolve] and [reject] of that promise, so it is
    represented by the reference of the promise. *)
Record entry : Type := mkEntry {
  controller : nat;
  cleanup : cleanup_closure
}.

(** The two functions handed to [setTimeout], with what they capture. *)
Inductive callback : Type :=
| CompletedCallback (controller : nat) (id : string) (cleanup : cleanup_closure)
| UpdatedCallback (newController : nat) (id : string).

Record timer : Type := mkTimer {
  tm_callback : callback;
  tm_ms : Z;
  status : timer_status
}.

(** The state of the process that the library reads and writes: the map
    [activeTimeouts], the promises and the timers created so far (a
    reference or a timer handle is an index), and the lines written by
    [console.error]. *)
Record state : Type := mkState {
  activeTimeouts : gmap string entry;
  promises : list promise_state;
  timers : list timer;
  console : list (string * value)
}.

Definition initial : state := mkState ∅ [] [] [].

(** A computation runs on the state and completes normally with a
    result or abruptly with a thrown value. *)
Inductive completion (A : Type) : Type :=
| Normal (a : A)
| Abrupt (e : value).
Arguments Normal {A}.
Arguments Abrupt {A}.

Definition M (A : Type) : Type := state → completion A * state.

#[global] Instance M_ret : MRet M := λ A a st, (Normal a, st).

#[global] Instance M_bind : MBind M := λ A B f m st,
  match m st with
  | (Normal a, st') => f a st'
  | (Abrupt e, st') => (Abrupt e, st')
  end.

Definition throw {A : Type} (e : value) : M A := λ st, (Abrupt e, st).

(** [try { body } catch (e) { handler(e) }] *)
Definition try_catch {A : Type} (body : M A) (handler : value → M A) : M A := λ st,
  match body st with
  | (Normal a, st') => (Normal a, st')
  | (Abrupt e, st') => handler e st'
  end.

(** [new TimeoutController()]: a new pending promise. *)
Definition new_TimeoutController : M nat := λ st,
  (Normal (length (promises st)),
   mkState (activeTimeouts st) (promises st ++ [Pending]) (timers st) (console st)).

(** Settling a promise takes effect only while it is pending. *)
Definition settle (p : nat) (s : promise_state) (ps : list promise_state)
  : list promise_state :=
  match ps !! p with
  | Some Pending => <[p := s]> ps
  | _ => ps
  end.

(** [controller.resolve(v)] *)
Definition resolve (controller : nat) (v : value) : M unit := λ st,
  (Normal (),
   mkState (activeTimeouts st) (settle controller (Fulfilled v) (promises st))
     (timers st) (console st)).

(** [controller.reject(e)] *)
Definition reject (controller : nat) (e : value) : M unit := λ st,
  (Normal (),
   mkState (activeTimeouts st) (settle controller (Rejected e) (promises st))
     (timers st) (console st)).

(** [setTimeout(callback, ms)].  The callback may mention the variable
    the handle is then assigned to, so it is given as a function of the
    handle. *)
Definition setTimeout (callback : nat → callback) (ms : Z) : M nat := λ st,
  let handle := length (timers st) in
  (Normal handle,
   mkState (activeTimeouts st) (promises st)
     (timers st ++ [mkTimer (callback handle) ms Scheduled]) (console st)).

Definition set_status (h : nat) (s : timer_status) (ts : list timer) : list timer :=
  match ts !! h with
  | Some t =>
      match status t with
      | Scheduled => <[h := mkTimer (tm_callback t) (tm_ms t) s]> ts
      | _ => ts
      end
  | None => ts
  end.

(** [clearTimeout(timeout)]: no effect on a timer that is not scheduled
    any more. *)
Definition clearTimeout (timeout : nat) : M unit := λ st,
  (Normal (),
   mkState (activeTimeouts st) (promises st) (set_status timeout Cleared (timers st))
     (console st)).

(** [activeTimeouts.get(id)], [.set(id, entry)] and [.delete(id)] *)
Definition activeTimeouts_get (id : string) : M (option entry) := λ st,
  (Normal (activeTimeouts st !! id), st).

Definition activeTimeouts_set (id : string) (e : entry) : M unit := λ st,
  (Normal (),
   mkState (<[id := e]> (activeTimeouts st)) (promises st) (timers st) (console st)).

Definition activeTimeouts_delete (id : string) : M unit := λ st,
  (Normal (),
   mkState (delete id (activeTimeouts st)) (promises st) (timers st) (console st)).

(** [console.error(label, e)] *)
Definition console_error (label : string) (e : value) : M unit := λ st,
  (Normal (),
   mkState (activeTimeouts st) (promises st) (timers st) (console st ++ [(label, e)])).

(** Calling a [cleanup] closure. *)
Definition call_cleanup (c : cleanup_closure) : M unit :=
  clearTimeout (cl_timeout c) ;;
  activeTimeouts_delete (cl_id c).

(** [waitWithId(ms)], where [id] is what [randomUUID()] returns.  The
    result is the pair [{ id, promise }]. *)
Definition waitWithId (ms : Z) (id : string) : M (string * nat) :=
  controller ← new_TimeoutController;
  timeout ← setTimeout
    (λ timeout, CompletedCallback controller id (mkCleanup timeout id)) ms;
  activeTimeouts_set id (mkEntry controller (mkCleanup timeout id)) ;;
  mret (id, controller).

(** [cancelWait(id, reason)] *)
Definition cancelWait (id : string) (reason : option string) : M bool :=
  entry ← activeTimeouts_get id;
  match entry with
  | None => mret false
  | Some entry =>
      reject (controller entry) (VTimeoutError (new_TimeoutError id reason)) ;;
      call_cleanup (cleanup entry) ;;
      mret true
  end.

(** [updateWait(id, newMs)]; the result is the promise of the new
    controller. *)
Definition updateWait (id : string) (newMs : Z) : M nat :=
  entry ← activeTimeouts_get id;
  match entry with
  | None => throw (VTimeoutError (new_TimeoutError id (Some "Timeout not found")))
  | Some entry =>
      newController ← new_TimeoutController;
      call_cleanup (cleanup entry) ;;
      newTimeout ← setTimeout (λ _, UpdatedCallback newController id) newMs;
      activeTimeouts_set id (mkEntry newController (mkCleanup newTimeout id)) ;;
      mret newController
  end.

(** The bodies of the two timer callbacks. *)
Definition call_callback (cb : callback) : M unit :=
  match cb with
  | CompletedCallback controller id cleanup =>
      resolve controller (VString ("Completed timeout ID: " +:+ id)) ;;
      call_cleanup cleanup
  | UpdatedCallback newController id =>
      resolve newController (VString ("Updated timeout ID: " +:+ id)) ;;
      activeTimeouts_delete id
  end.

(** The event loop runs the callback of a timer that is still
    scheduled; this is the natural completion of a delay. *)
Definition fire (h : nat) : M unit := λ st,
  match timers st !! h with
  | Some t =>
      match status t with
      | Scheduled =>
          call_callback (tm_callback t)
            (mkState (activeTimeouts st) (promises st)
               (set_status h Fired (timers st)) (console st))
      | _ => (Normal (), st)
      end
  | None => (Normal (), st)
  end.

(** [for (const [id, entry] of activeTimeouts) body] over a given
    enumeration of the keys present when the loop starts: each key is
    visited unless it has been deleted in the meantime, and an abrupt
    completion of the body ends the loop.  (No body in this file adds a
    key during the loop.) *)
Fixpoint for_of_keys (body : string → entry → M unit) (ids : list string) : M unit :=
  match ids with
  | [] => mret ()
  | id :: ids' =>
      entry ← activeTimeouts_get id;
      match entry with
      | Some entry => body id entry
      | None => mret ()
      end ;;
      for_of_keys body ids'
  end.

(** A JavaScript [Map] is enumerated in insertion order, which a [gmap]
    does not record; the loop below takes the enumeration of the [gmap],
    and the facts about the handler are proved for every enumeration. *)
Definition for_of_activeTimeouts (body : string → entry → M unit) : M unit := λ st,
  for_of_keys body (map_to_list (activeTimeouts st)).*1 st.

(** The statements inside the [try] block of the ['exit'] handler. *)
Definition teardown_entry (id : string) (entry : entry) : M unit :=
  reject (controller entry) (VTimeoutError (new_TimeoutError id (Some "Process exiting"))) ;;
  call_cleanup (cleanup entry).

(** The body of the loop of the ['exit'] handler, over the statements
    of its [try] block. *)
Definition guarded (body : string → entry → M unit) (id : string) (entry : entry)
  : M unit :=
  try_catch (body id entry) (λ e, console_error "Cleanup error:" e).

Definition exit_handler_with (body : string → entry → M unit) : M unit :=
  for_of_activeTimeouts (guarded body).

(** [process.on('exit', ...)] *)
Definition exit_handler : M unit := exit_handler_with teardown_entry.

(** What can happen to the registry: a call of one of the three
    exported operations, a timer firing, and the ['exit'] event. *)
Inductive action : Type :=
| Create (ms : Z) (id : string)
| Cancel (id : string) (reason : option string)
| Update (id : string) (newMs : Z)
| Fire (h : nat)
| Exit.

Definition step (a : action) (st : state) : state :=
  match a with
  | Create ms id => (waitWithId ms id st).2
  | Cancel id reason => (cancelWait id reason st).2
  | Update id newMs => (updateWait id newMs st).2
  | Fire h => (fire h st).2
  | Exit => (exit_handler st).2
  end.

(** [randomUUID()] does not return an identifier that is in use. *)
Definition enabled (a : action) (st : state) : Prop :=
  match a with
  | Create _ id => activeTimeouts st !! id = None
  | _ => True
  end.

Inductive reachable : state → Prop :=
| reachable_initial : reachable initial
| reachable_step a st : reachable st → enabled a st → reachable (step a st).

(** Running a list of actions, and whether it creates a given id. *)
Definition run (acts : list action) (st : state) : state :=
  foldl (λ st a, step a st) st acts.

Definition creates (id : string) (a : action) : Prop :=
  match a with
  | Create _ id' => id' = id
  | _ => False
  end.

(** The promise a timer callback resolves and the identifier it
    deletes. *)
Definition cb_controller (cb : callback) : nat :=
  match cb with
  | CompletedCallback c _ _ => c
  | UpdatedCallback c _ => c
  end.

Definition cb_id (cb : callback) : string :=
  match cb with
  | CompletedCallback _ id _ => id
  | UpdatedCallback _ id => id
  end.

(** The registry invariant: every entry is filed under the identifier
    its cleanup deletes, owns a pending promise and a scheduled timer
    whose callback settles that promise and removes that identifier; no
    two entries share a promise; and every scheduled timer is the timer
    of an entry. *)
Record wf (st : state) : Prop := mkWf {
  wf_entry id e :
    activeTimeouts st !! id = Some e →
    cl_id (cleanup e) = id
    ∧ promises st !! controller e = Some Pending
    ∧ ∃ t, timers st !! cl_timeout (cleanup e) = Some t
           ∧ status t = Scheduled
           ∧ cb_id (tm_callback t) = id
           ∧ cb_controller (tm_callback t) = controller e
           ∧ ∀ c i cl, tm_callback t = CompletedCallback c i cl → cl = cleanup e;
  wf_controller id1 id2 e1 e2 :
    activeTimeouts st !! id1 = Some e1 →
    activeTimeouts st !! id2 = Some e2 →
    controller e1 = controller e2 → id1 = id2;
  wf_timer h t :
    timers st !! h = Some t → status t = Scheduled →
    ∃ e, activeTimeouts st !! cb_id (tm_callback t) = Some e
         ∧ cl_timeout (cleanup e) = h
}.

(** The state after an entry has been taken out: its promise settled
    (or left alone), its timer retired, its identifier deleted. *)
Definition without (e : entry) (ps : list promise_state) (s : timer_status)
    (st : state) : state :=
  mkState (delete (cl_id (cleanup e)) (activeTimeouts st)) ps
    (set_status (cl_timeout (cleanup e)) s (timers st)) (console st).

(** The value a delay resolves with when its timer fires. *)
Definition completion_message (cb : callback) : value :=
  match cb with
  | CompletedCallback _ id _ => VString ("Completed timeout ID: " +:+ id)
  | UpdatedCallback _ id => VString ("Updated timeout ID: " +:+ id)
  end.

(** The error the ['exit'] handler rejects the delay [id] with. *)
Definition exiting (id : string) : value :=
  VTimeoutError (new_TimeoutError id (Some "Process exiting")).

(** [st'] is what is left of [st] after a teardown: no entry, and for
    every entry of [st] a promise rejected with "Process exiting" and a
    cleared timer. *)
Definition torn_down (st st' : state) : Prop :=
  activeTimeouts st' = ∅
  ∧ ∀ id e,
      activeTimeouts st !! id = Some e →
      ∃ err,
        promises st' !! controller e = Some (Rejected (VTimeoutError err))
        ∧ te_message err = "Process exiting"
        ∧ te_name err = "TimeoutError"
        ∧ te_id err = id
        ∧ ∃ t, timers st' !! cl_timeout (cleanup e) = Some t ∧ status t = Cleared.

(** No entry refers to the promise [p]. *)
Definition unreferenced (p : nat) (st : state) : Prop :=
  ∀ id e, activeTimeouts st !! id = Some e → controller e ≠ p.

(** The actions that take the entry [e] of [id] out of the registry for
    good: cancellation, the firing of its timer, and the ['exit']
    handler. *)
Definition removes (id : string) (e : entry) (a : action) : Prop :=
  match a with
  | Cancel id' _ => id' = id
  | Fire h => h = cl_timeout (cleanup e)
  | Exit => True
  | _ => False
  end.

(** The message of a [TimeoutError] made without a usable reason. *)
Definition default_message (id : string) : string :=
  "Timeout " +:+ id +:+ " cancelled".

(** A registry with one delay, [waitWithId(500)] under the identifier
    ["a"]. *)
Definition one_delay : state := step (Create 500 "a") initial.

(** A run in which every action is enabled when its turn comes. *)
Fixpoint valid (acts : list action) (st : state) : Prop :=
  match acts with
  | [] => True
  | a :: acts' => enabled a st ∧ valid acts' (step a st)
  end.

(** The actions that concern the delay [id] with entry [e]: a call
    with that identifier, the firing of its timer, and the ['exit']
    handler. *)
Definition concerns (id : string) (e : entry) (a : action) : Prop :=
  match a with
  | Create _ id' | Cancel id' _ | Update id' _ => id' = id
  | Fire h => h = cl_timeout (cleanup e)
  | Exit => True
  end.

(** What the library settles a promise with: one of the two completion
    strings, or a [TimeoutError]. *)
Definition settled_by_library (s : promise_state) : Prop :=
  match s with
  | Pending => True
  | Fulfilled v =>
      ∃ id, v = VString ("Completed timeout ID: " +:+ id)
            ∨ v = VString ("Updated timeout ID: " +:+ id)
  | Rejected x =>
      ∃ err, x = VTimeoutError err
             ∧ te_name err = "TimeoutError"
             ∧ code err = "ETIMEOUT"
             ∧ te_message err ≠ ""
  end.

(** Where the statements of the [try] block of the ['exit'] handler
    throw for an entry: not at all, in the first statement (the
    rejection), or in the second (the cleanup). *)
Inductive fault : Type :=
| NoFault
| RejectThrows (x : value)
| CleanupThrows (x : value).

(** The statements of the [try] block with throws at the places
    [faults] gives for each identifier. *)
Definition teardown_entry_with (faults : string → fault) (id : string) (entry : entry)
  : M unit :=
  match faults id with
  | NoFault => teardown_entry id entry
  | RejectThrows x => throw x
  | CleanupThrows x =>
      reject (controller entry)
        (VTimeoutError (new_TimeoutError id (Some "Process exiting"))) ;;
      throw x
  end.

(** What the ['exit'] handler leaves of an entry: torn down when its
    statements did not throw, and the thrown value on the console when
    they did. *)
Definition torn_down_or_logged (faults : string → fault) (id : string) (e : entry)
    (st' : state) : Prop :=
  match faults id with
  | NoFault =>
      activeTimeouts st' !! id = None
      ∧ promises st' !! controller e = Some (Rejected (exiting id))
      ∧ ∃ t, timers st' !! cl_timeout (cleanup e) = Some t ∧ status t = Cleared
  | RejectThrows x | CleanupThrows x => ("Cleanup error:", x) ∈ console st'
  end.

(** A registry with two delays, under ["a"] and ["b"], and a [try]
    block that throws for ["a"]. *)
Definition two_delays : state := step (Create 300 "b") one_delay.

Definition throws_for_a (id : string) : fault :=
  if decide (id = "a") then RejectThrows (VString "boom") else NoFault.

End Registry.

(** ** The plain delay *)

Module Delay.
Import Registry.

(** [wait(ms)] makes a promise and hands its [resolve] to [setTimeout].
    The function its executor returns, which would clear the timer, is
    dropped by the [Promise] constructor: nothing keeps the handle. *)
Record timer : Type := mkTimer {
  promise : nat;
  ms : Z;
  status : timer_status
}.

(** The promises made by [wait] and the timers that resolve them. *)
Record state : Type := mkState {
  promises : list promise_state;
  timers : list timer
}.

Definition initial : state := mkState [] [].

(** [wait(ms)]; the result is the promise. *)
Definition wait (ms : Z) (st : state) : nat * state :=
  let promise := length (promises st) in
  (promise,
   mkState (promises st ++ [Pending]) (timers st ++ [mkTimer promise ms Scheduled])).

(** The event loop runs the callback of a scheduled timer, [resolve]
    with no argument. *)
Definition fire (h : nat) (st : state) : state :=
  match timers st !! h with
  | Some t =>
      match status t with
      | Scheduled =>
          mkState (settle (promise t) (Fulfilled VUndefined) (promises st))
            (<[h := mkTimer (promise t) (ms t) Fired]> (timers st))
      | _ => st
      end
  | None => st
  end.

Inductive action : Type :=
| Wait (ms : Z)
| Fire (h : nat).

Definition step (a : action) (st : state) : state :=
  match a with
  | Wait ms => (wait ms st).2
  | Fire h => fire h st
  end.

Definition run (acts : list action) (st : state) : state :=
  foldl (λ st a, step a st) st acts.

(** The promise of every timer is the one made with it, pending while
    the timer is scheduled and fulfilled with [undefined] once it has
    fired; no timer is cleared. *)
Definition consistent (st : state) : Prop :=
  length (promises st) = length (timers st)
  ∧ ∀ h t, timers st !! h = Some t →
           promise t = h
           ∧ ((status t = Scheduled ∧ promises st !! h = Some Pending)
              ∨ (status t = Fired ∧ promises st !! h = Some (Fulfilled VUndefined))).

End Delay.

(** ** Facts about the retry executor *)

Module RetryFacts.
Import Retry.

Lemma failing_trace_S m d n :
  failing_trace m d (S n) = Invoke :: Sleep (d * m) :: failing_trace m (d * m) n.
Proof.
  unfold failing_trace. cbn [seq fmap list_fmap mjoin list_join app].
  rewrite Z.pow_1_r. do 3 f_equal. f_equal.
  rewrite <- (fmap_S_seq 1), <- list_fmap_compose.
  apply list_fmap_ext. intros _ i _. cbn.
  rewrite Nat2Z.inj_succ, Z.pow_succ_r by lia.
  by rewrite Z.mul_assoc.
Qed.

Lemma sleeps_failing_trace m d n :
  sleeps (failing_trace m d n) = (λ i : nat, d * m ^ Z.of_nat i) <$> seq 1 n.
Proof.
  revert d. induction n as [|n IH]; intros d; [done|].
  rewrite failing_trace_S. cbn [sleeps]. rewrite IH.
  cbn [seq fmap list_fmap]. rewrite Z.pow_1_r. f_equal.
  rewrite <- (fmap_S_seq 1), <- list_fmap_compose.
  apply list_fmap_ext. intros _ i _. cbn.
  rewrite Nat2Z.inj_succ, Z.pow_succ_r by lia.
  by rewrite Z.mul_assoc.
Qed.

Lemma invocations_failing_trace m d n :
  invocations (failing_trace m d n) = S n.
Proof.
  revert d. induction n as [|n IH]; intros d; [done|].
  rewrite failing_trace_S. cbn [invocations]. by rewrite IH.
Qed.

(** *** Building the [RetryError] *)

Lemma new_RetryError_wrappable x a d :
  wrappable x = true →
  ∃ e, new_RetryError x a d = Done e
       ∧ attempts e = a
       ∧ finalDelay e = d
       ∧ re_name e = "RetryError"
       ∧ re_message e = "Retry failed after " +:+ pretty a +:+ " attempts"
       ∧ instanceof_Error (cause e) = true
       ∧ (instanceof_Error x = true → cause e = x)
       ∧ (instanceof_Error x = false →
          ∃ msg, cause e = VError "Error" msg
                 ∧ if x is VUndefined then msg = "" else ToString x = Done msg).
Proof.
  intros Hx. destruct x as [| |[]| | | |[]| | |]; try done; eexists;
    (split; [reflexivity|]); cbn; repeat (split; [done|]);
    intros ?; try done; eexists; by split.
Qed.

Lemma new_RetryError_not_wrappable x a d :
  wrappable x = false → ∃ msg, new_RetryError x a d = Raised (TypeError msg).
Proof. destruct x as [| | | | | |[]| | |]; try done; by eexists. Qed.

(** What [throw new RetryError(...)] throws is a [RetryError] only when
    the constructor has returned it. *)
Lemma throw_RetryError_inv x a d e :
  throw_RetryError x a d = Threw (VRetryError e) →
  new_RetryError x a d = Done e ∧ attempts e = a ∧ finalDelay e = d.
Proof.
  unfold throw_RetryError. destruct (wrappable x) eqn:Hx.
  - destruct (new_RetryError_wrappable x a d Hx) as (e' & -> & Ha & Hd & _).
    by intros [= <-].
  - destruct (new_RetryError_not_wrappable x a d Hx) as (msg & ->). done.
Qed.

Lemma throw_RetryError_wrappable x a d :
  wrappable x = true →
  ∃ e, new_RetryError x a d = Done e ∧ throw_RetryError x a d = Threw (VRetryError e).
Proof.
  intros Hx. destruct (new_RetryError_wrappable x a d Hx) as (e & He & _).
  exists e. split; [done|]. unfold throw_RetryError. by rewrite He.
Qed.

Section Executor.

Context {St : Type}.
Variable fn : St → outcome * St.

Lemma calls_S n s :
  calls fn (S n) s
  = ((fn s).1 :: (calls fn n (fn s).2).1, (calls fn n (fn s).2).2).
Proof.
  cbn [calls]. destruct (fn s) as [o s1]. cbn [fst snd].
  by destruct (calls fn n s1).
Qed.


(** With enough fuel the loop always comes to an end. *)
Lemma while_loop_total retries backoff fuel attempt currentDelay lastError s :
  retries + 1 - attempt ≤ Z.of_nat fuel →
  is_Some (while_loop fn retries backoff fuel attempt currentDelay lastError s).
Proof.
  revert attempt currentDelay lastError s.
  induction fuel as [|fuel IH]; intros attempt cd le s Hfuel; cbn.
  - destruct (Z.leb_spec attempt retries); [lia|eauto].
  - destruct (Z.leb_spec attempt retries); [|eauto].
    destruct (fn s) as [[v|e] s']; [eauto|].
    destruct (Z.geb_spec attempt retries); [eauto|].
    destruct (IH (attempt + 1) (if strict_equals_string backoff "exponential"
                                then cd * 2 else cd) e s') as [[[o s''] tr] ->];
      [lia|eauto].
Qed.

Lemma waitWithRetry_total opts s : is_Some (waitWithRetry fn opts s).
Proof. unfold waitWithRetry. apply while_loop_total. lia. Qed.

(** Every run of the loop that starts within the budget is a run of
    [n] calls of the operation, all but the last of them failures, with
    the scaled sleeps in between.  It ends with the value the last call
    returned or, the budget used up, by throwing a [RetryError] for what
    the last call threw. *)
Lemma while_loop_run retries backoff fuel :
  ∀ attempt currentDelay lastError s o s' tr,
    attempt ≤ retries →
    while_loop fn retries backoff fuel attempt currentDelay lastError s = Some (o, s', tr) →
    ∃ (n : nat) xs final,
      (1 ≤ n)%nat
      ∧ attempt + Z.of_nat n ≤ retries + 1
      ∧ calls fn n s = ((Threw <$> xs) ++ [final], s')
      ∧ tr = failing_trace (backoff_factor backoff) currentDelay (n - 1)
      ∧ match final with
        | Returned v => o = Returned v
        | Threw x =>
            attempt + Z.of_nat n = retries + 1
            ∧ o = throw_RetryError x (retries + 1)
                    (currentDelay * backoff_factor backoff ^ Z.of_nat (n - 1))
        end.
Proof.
  induction fuel as [|fuel IH]; intros attempt cd lastErr s o s' tr Hle; cbn [while_loop];
    destruct (Z.leb_spec attempt retries); try lia; [done|].
  destruct (fn s) as [[v|y] s1] eqn:Hfn.
  { intros [= <- <- <-]. exists 1%nat, [], (Returned v). split; [done|]. split; [lia|].
    split; [by rewrite calls_S, Hfn|]. done. }
  destruct (Z.geb_spec attempt retries).
  { intros [= <- <- <-]. exists 1%nat, [], (Threw y). split; [done|]. split; [lia|].
    split; [by rewrite calls_S, Hfn|]. split; [done|]. split; [lia|].
    replace (attempt + 1) with (retries + 1) by lia.
    by rewrite Z.pow_0_r, Z.mul_1_r. }
  set (cd' := if strict_equals_string backoff "exponential" then cd * 2 else cd).
  assert (cd' = cd * backoff_factor backoff) as Hcd.
  { unfold cd', backoff_factor.
    destruct (strict_equals_string backoff "exponential"); lia. }
  destruct (while_loop fn retries backoff fuel (attempt + 1) cd' y s1)
    as [[[o1 s2] tr1]|] eqn:Hrec; [|done].
  intros [= <- <- <-].
  assert (attempt + 1 ≤ retries) as Hle' by lia.
  destruct (IH _ _ _ _ _ _ _ Hle' Hrec) as (n & xs & final & Hn & Hbound & Hcalls & -> & Ho).
  exists (S n), (y :: xs), final. split; [lia|]. split; [lia|].
  split; [rewrite calls_S, Hfn; cbn [fst snd]; by rewrite Hcalls|].
  replace (S n - 1)%nat with (S (n - 1)) by lia.
  split; [by rewrite failing_trace_S, <- Hcd|].
  destruct final as [v|x]; [done|]. destruct Ho as [Hall ->].
  split; [lia|]. f_equal.
  rewrite Nat2Z.inj_succ, Z.pow_succ_r, Hcd by lia.
  by rewrite Z.mul_assoc.
Qed.

(** The loop reads [backoff] only through the comparison with
    ['exponential']. *)
Lemma while_loop_backoff_ext retries b1 b2 fuel attempt currentDelay lastError s :
  strict_equals_string b1 "exponential" = strict_equals_string b2 "exponential" →
  while_loop fn retries b1 fuel attempt currentDelay lastError s
  = while_loop fn retries b2 fuel attempt currentDelay lastError s.
Proof.
  intros Hb. revert attempt currentDelay lastError s.
  induction fuel as [|fuel IH]; intros attempt cd le s; cbn [while_loop]; [done|].
  destruct (attempt <=? retries); [|done].
  destruct (fn s) as [[v|e] s']; [done|].
  destruct (attempt >=? retries); [done|].
  by rewrite Hb, IH.
Qed.

(** Without exponential backoff the delay is the same at every sleep
    and in the error of an exhausted run. *)
Lemma while_loop_delay_unchanged retries backoff fuel attempt currentDelay lastError s o s' tr :
  strict_equals_string backoff "exponential" = false →
  while_loop fn retries backoff fuel attempt currentDelay lastError s = Some (o, s', tr) →
  Forall (λ ms, ms = currentDelay) (sleeps tr) ∧
  ∀ e, o = Threw (VRetryError e) → finalDelay e = currentDelay.
Proof.
  intros Hb. revert attempt lastError s o s' tr.
  induction fuel as [|fuel IH]; intros attempt le s o s' tr; cbn [while_loop].
  - destruct (attempt <=? retries); [done|].
    intros [= <- <- <-]. split; [constructor|].
    by intros e (_ & _ & ?)%throw_RetryError_inv.
  - destruct (attempt <=? retries).
    2:{ intros [= <- <- <-]. split; [constructor|].
        by intros e (_ & _ & ?)%throw_RetryError_inv. }
    destruct (fn s) as [[v|x] s1].
    { intros [= <- <- <-]. split; [constructor|]. by intros e [=]. }
    destruct (attempt >=? retries).
    { intros [= <- <- <-]. split; [constructor|].
      by intros e (_ & _ & ?)%throw_RetryError_inv. }
    rewrite Hb.
    destruct (while_loop fn retries backoff fuel (attempt + 1) currentDelay x s1)
      as [[[o1 s2] tr1]|] eqn:Hrec; [|done].
    intros [= <- <- <-]. destruct (IH _ _ _ _ _ _ Hrec) as [Hs He].
    split; [cbn [sleeps]; by constructor|done].
Qed.

(** An operation that succeeds on its [k]-th invocation is called [k]
    times, with a sleep before each call but the first. *)
Lemma while_loop_succeeds retries backoff (k : nat) :
  ∀ fuel attempt currentDelay lastError s v s_end,
    succeeds_on fn k s v s_end →
    attempt + Z.of_nat k ≤ retries + 1 →
    (k ≤ fuel)%nat →
    ∃ tr, while_loop fn retries backoff fuel attempt currentDelay lastError s
          = Some (Returned v, s_end, tr)
          ∧ invocations tr = k
          ∧ length (sleeps tr) = (k - 1)%nat
          ∧ last tr = Some Invoke.
Proof.
  induction k as [|k IH]; intros fuel attempt cd le s v s_end Hk Hle Hfuel; [done|].
  destruct fuel as [|fuel]; [lia|]. cbn [while_loop].
  destruct (Z.leb_spec attempt retries); [|lia].
  destruct k as [|k].
  - cbn in Hk. rewrite Hk. by exists [Invoke].
  - destruct Hk as (e & s1 & Hfn & Hk). rewrite Hfn.
    destruct (Z.geb_spec attempt retries); [lia|].
    set (cd' := if strict_equals_string backoff "exponential" then cd * 2 else cd).
    destruct (IH fuel (attempt + 1) cd' e s1 v s_end Hk) as (tr & -> & Hi & Hs & Hl);
      [lia..|].
    eexists. split; [done|]. cbn [invocations sleeps length].
    rewrite Hi, Hs. split_and!; [done|lia|].
    destruct tr as [|ev tr]; [done|]. by rewrite !last_cons_cons.
Qed.

End Executor.



(** *** Runs of the test suite *)

Example retry_with_failure :
  ∃ e s tr,
    waitWithRetry (rejecting (VString "permanent")) (mkOptions (Some 2) None VUndefined) 0%nat
    = Some (Threw (VRetryError e), s, tr)
    ∧ attempts e = 3
    ∧ message (cause e) = Some "permanent"
    ∧ sleeps tr = [2000; 2000].
Proof. by eexists _, _, _. Qed.

Example exponential_backoff_failure :
  ∃ e s tr,
    waitWithRetry (rejecting (VString "permanent"))
      (mkOptions (Some 2) (Some 100) (VString "exponential")) 0%nat
    = Some (Threw (VRetryError e), s, tr)
    ∧ attempts e = 3
    ∧ finalDelay e = 400
    ∧ tr = [Invoke; Sleep 200; Invoke; Sleep 400; Invoke].
Proof. by eexists _, _, _. Qed.

Example exponential_backoff_with_success :
  waitWithRetry third_time_lucky (mkOptions (Some 3) (Some 100) (VString "exponential")) 0%nat
  = Some (Returned (VString "success"), 3%nat, [Invoke; Sleep 200; Invoke; Sleep 400; Invoke]).
Proof. reflexivity. Qed.

(** With a negative [retries] the loop is not entered: the operation is
    never called and the error carries [undefined]. *)
Example negative_retries :
  waitWithRetry (rejecting (VString "error")) (mkOptions (Some (-1)) None VUndefined) 0%nat
  = Some (throw_RetryError VUndefined 1 2000, 0%nat, []).
Proof. reflexivity. Qed.









(** C8: when the operation succeeds on its [k]-th invocation and
    [k <= r + 1], the call returns the value the operation produced,
    after exactly [k] invocations and [k - 1] sleeps; the successful
    invocation is the last thing that happens. *)
Theorem success_on_kth_attempt {St} (fn : St → outcome * St) (opts : options)
    (r : Z) (k : nat) (s : St) (v : value) (s_end : St) :
  retries opts = Some r →
  Z.of_nat k ≤ r + 1 →
  succeeds_on fn k s v s_end →
  ∃ tr,
    waitWithRetry fn opts s = Some (Returned v, s_end, tr)
    ∧ invocations tr = k
    ∧ length (sleeps tr) = (k - 1)%nat
    ∧ last tr = Some Invoke.
Proof.
  intros Hopts Hk Hsucc. unfold waitWithRetry. rewrite Hopts. cbn [from_option id].
  apply (while_loop_succeeds fn r _ k); [done|lia..].
Qed.

Lemma success_on_kth_attempt_witness :
  retries (mkOptions (Some 3) (Some 50) VUndefined) = Some 3 ∧
  Z.of_nat 3 ≤ 3 + 1 ∧
  succeeds_on third_time_lucky 3 0%nat (VString "success") 3%nat ∧
  ∃ tr,
    waitWithRetry third_time_lucky (mkOptions (Some 3) (Some 50) VUndefined) 0%nat
    = Some (Returned (VString "success"), 3%nat, tr)
    ∧ invocations tr = 3%nat
    ∧ length (sleeps tr) = (3 - 1)%nat
    ∧ last tr = Some Invoke.
Proof.
  assert (succeeds_on third_time_lucky 3 0%nat (VString "success") 3%nat) as Hsucc.
  { cbn. eexists _, _. split; [reflexivity|]. eexists _, _. split; reflexivity. }
  split; [reflexivity|]. split; [lia|]. split; [exact Hsucc|].
  apply (success_on_kth_attempt third_time_lucky
           (mkOptions (Some 3) (Some 50) VUndefined) 3 3 0%nat
           (VString "success") 3%nat); [reflexivity|lia|exact Hsucc].
Defined.

(** C10: for every [backoff] other than the string ['exponential'] the
    call behaves as with ['fixed']: same outcome, same state, same
    events; every sleep lasts the configured delay, and the
    [finalDelay] of the [RetryError] of an exhausted run is the
    configured delay. *)
Theorem non_exponential_backoff_is_fixed {St} (fn : St → outcome * St)
    (b : value) (r d : option Z) (s : St) :
  b ≠ VString "exponential" →
  waitWithRetry fn (mkOptions r d b) s
  = waitWithRetry fn (mkOptions r d (VString "fixed")) s
  ∧ ∃ o s' tr,
      waitWithRetry fn (mkOptions r d b) s = Some (o, s', tr)
      ∧ Forall (λ ms, ms = default 2000 d) (sleeps tr)
      ∧ ∀ e, o = Threw (VRetryError e) → finalDelay e = default 2000 d.
Proof.
  intros Hb.
  assert (strict_equals_string (if b is VUndefined then VString "fixed" else b)
            "exponential" = false) as Hcmp.
  { destruct b; try done. apply bool_decide_eq_false. congruence. }
  split.
  - unfold waitWithRetry. cbn [retries delay backoff].
    apply while_loop_backoff_ext. by rewrite Hcmp.
  - destruct (waitWithRetry_total fn (mkOptions r d b) s) as [[[o s'] tr] Hrun].
    exists o, s', tr. split; [done|].
    unfold waitWithRetry in Hrun. cbn [retries delay backoff] in Hrun.
    by apply (while_loop_delay_unchanged fn) in Hrun.
Qed.

Lemma non_exponential_backoff_is_fixed_witness :
  VString "Exponential" ≠ VString "exponential" ∧
  waitWithRetry (rejecting (VString "fail"))
    (mkOptions (Some 2) (Some 100) (VString "Exponential")) 0%nat
  = waitWithRetry (rejecting (VString "fail"))
      (mkOptions (Some 2) (Some 100) (VString "fixed")) 0%nat
  ∧ ∃ o s' tr,
      waitWithRetry (rejecting (VString "fail"))
        (mkOptions (Some 2) (Some 100) (VString "Exponential")) 0%nat
      = Some (o, s', tr)
      ∧ Forall (λ ms, ms = default 2000 (Some 100)) (sleeps tr)
      ∧ ∀ e, o = Threw (VRetryError e) → finalDelay e = default 2000 (Some 100).
Proof.
  split; [discriminate|].
  apply (non_exponential_backoff_is_fixed (rejecting (VString "fail"))
           (VString "Exponential") (Some 2) (Some 100) 0%nat).
  discriminate.
Defined.




End RetryFacts.

(** ** Facts about the timeout registry *)

Module RegistryFacts.
Import Registry.

(** *** Promises and timers *)

Lemma length_settle p s ps : length (settle p s ps) = length ps.
Proof.
  unfold settle. destruct (ps !! p) as [[]|]; try done. apply length_insert.
Qed.

Lemma settle_lookup_ne p q s ps : p ≠ q → settle p s ps !! q = ps !! q.
Proof.
  intros Hne. unfold settle. destruct (ps !! p) as [[]|]; try done.
  by apply list_lookup_insert_ne.
Qed.

Lemma settle_lookup_pending p s ps :
  ps !! p = Some Pending → settle p s ps !! p = Some s.
Proof.
  intros Hp. unfold settle. rewrite Hp.
  apply list_lookup_insert_eq. by eapply lookup_lt_Some.
Qed.

(** A promise that is settled stays as it is. *)
Lemma settle_lookup_settled p q s s' ps :
  ps !! q = Some s' → s' ≠ Pending → settle p s ps !! q = Some s'.
Proof.
  intros Hq Hs'. destruct (decide (p = q)) as [->|Hne].
  - unfold settle. rewrite Hq. by destruct s'.
  - by rewrite settle_lookup_ne.
Qed.

Lemma length_set_status h s ts : length (set_status h s ts) = length ts.
Proof.
  unfold set_status. destruct (ts !! h) as [t|]; [|done].
  destruct (status t); try done. apply length_insert.
Qed.

Lemma set_status_lookup_ne h h' s ts : h ≠ h' → set_status h s ts !! h' = ts !! h'.
Proof.
  intros Hne. unfold set_status. destruct (ts !! h) as [t|]; [|done].
  destruct (status t); try done. by apply list_lookup_insert_ne.
Qed.

Lemma set_status_lookup_scheduled h s ts t :
  ts !! h = Some t → status t = Scheduled →
  set_status h s ts !! h = Some (mkTimer (tm_callback t) (tm_ms t) s).
Proof.
  intros Ht Hs. unfold set_status. rewrite Ht, Hs.
  apply list_lookup_insert_eq. by eapply lookup_lt_Some.
Qed.

(** A timer that has fired or was cleared stays as it is. *)
Lemma set_status_lookup_retired h h' s ts t :
  ts !! h' = Some t → status t ≠ Scheduled → set_status h s ts !! h' = Some t.
Proof.
  intros Ht Hs. destruct (decide (h = h')) as [->|Hne].
  - unfold set_status. rewrite Ht. by destruct (status t).
  - by rewrite set_status_lookup_ne.
Qed.

Lemma set_status_retired h s ts t :
  ts !! h = Some t → status t ≠ Scheduled → set_status h s ts = ts.
Proof. intros Ht Hs. unfold set_status. rewrite Ht. by destruct (status t). Qed.

(** *** What the operations compute *)

Lemma cancelWait_absent id reason st :
  activeTimeouts st !! id = None → cancelWait id reason st = (Normal false, st).
Proof. intros Hid. unfold cancelWait, mbind, M_bind, activeTimeouts_get. by rewrite Hid. Qed.

Lemma cancelWait_present id reason st e :
  activeTimeouts st !! id = Some e →
  cancelWait id reason st
  = (Normal true,
     without e (settle (controller e) (Rejected (VTimeoutError (new_TimeoutError id reason)))
                  (promises st)) Cleared st).
Proof. intros Hid. unfold cancelWait, mbind, M_bind, activeTimeouts_get. by rewrite Hid. Qed.

Lemma updateWait_absent id newMs st :
  activeTimeouts st !! id = None →
  updateWait id newMs st
  = (Abrupt (VTimeoutError (new_TimeoutError id (Some "Timeout not found"))), st).
Proof. intros Hid. unfold updateWait, mbind, M_bind, activeTimeouts_get. by rewrite Hid. Qed.

Lemma updateWait_present id newMs st e :
  activeTimeouts st !! id = Some e →
  updateWait id newMs st
  = (Normal (length (promises st)),
     let st0 := without e (promises st) Cleared st in
     mkState
       (<[id := mkEntry (length (promises st0)) (mkCleanup (length (timers st0)) id)]>
          (activeTimeouts st0))
       (promises st0 ++ [Pending])
       (timers st0 ++ [mkTimer (UpdatedCallback (length (promises st0)) id) newMs Scheduled])
       (console st0)).
Proof. intros Hid. unfold updateWait, mbind, M_bind, activeTimeouts_get. by rewrite Hid. Qed.

Lemma waitWithId_eq ms id st :
  waitWithId ms id st
  = (Normal (id, length (promises st)),
     mkState
       (<[id := mkEntry (length (promises st)) (mkCleanup (length (timers st)) id)]>
          (activeTimeouts st))
       (promises st ++ [Pending])
       (timers st ++ [mkTimer (CompletedCallback (length (promises st)) id
                                 (mkCleanup (length (timers st)) id)) ms Scheduled])
       (console st)).
Proof. done. Qed.

Lemma guarded_teardown_entry id e st :
  guarded teardown_entry id e st
  = (Normal (),
     without e (settle (controller e) (Rejected (exiting id)) (promises st)) Cleared st).
Proof. done. Qed.

(** *** The invariant is kept *)

Lemma wf_initial : wf initial.
Proof. split; cbn; intros *; by rewrite ?lookup_empty. Qed.

(** Two entries do not share a timer. *)
Lemma wf_timeout_inj st id1 id2 e1 e2 :
  wf st →
  activeTimeouts st !! id1 = Some e1 →
  activeTimeouts st !! id2 = Some e2 →
  cl_timeout (cleanup e1) = cl_timeout (cleanup e2) → id1 = id2.
Proof.
  intros Hwf H1 H2 Heq.
  destruct (wf_entry st Hwf _ _ H1) as (_ & _ & t1 & Ht1 & _ & Hi1 & _).
  destruct (wf_entry st Hwf _ _ H2) as (_ & _ & t2 & Ht2 & _ & Hi2 & _).
  rewrite Heq in Ht1. congruence.
Qed.

(** Taking an entry out keeps the invariant, whatever happens to the
    promise of the entry. *)
Lemma wf_without st id e ps s :
  wf st →
  activeTimeouts st !! id = Some e →
  s ≠ Scheduled →
  (∀ q, q ≠ controller e → ps !! q = promises st !! q) →
  wf (without e ps s st).
Proof.
  intros Hwf Hid Hs Hps.
  destruct (wf_entry st Hwf _ _ Hid) as (Hcl & _ & t & Ht & Hst & _).
  unfold without. rewrite Hcl. split; cbn.
  - intros id' e' [Hne Hid']%lookup_delete_Some.
    destruct (wf_entry st Hwf _ _ Hid') as (Hcl' & Hp' & t' & Ht' & Hrest).
    split; [done|]. split.
    + rewrite Hps; [done|]. intros Heq.
      by apply Hne, (wf_controller st Hwf id id' e e').
    + exists t'. split; [|done]. rewrite set_status_lookup_ne; [done|].
      intros Heq. by apply Hne, (wf_timeout_inj st id id' e e').
  - intros id1 id2 e1 e2 [_ H1]%lookup_delete_Some [_ H2]%lookup_delete_Some.
    by apply (wf_controller st Hwf).
  - intros h1 t1 Hh1 Hs1.
    destruct (decide (cl_timeout (cleanup e) = h1)) as [<-|Hne].
    { rewrite (set_status_lookup_scheduled _ _ _ t) in Hh1 by done.
      injection Hh1 as <-. cbn in Hs1. congruence. }
    rewrite set_status_lookup_ne in Hh1 by done.
    destruct (wf_timer st Hwf _ _ Hh1 Hs1) as (e1 & He1 & Hh).
    exists e1. split; [|done]. apply lookup_delete_Some. split; [|done].
    intros Heq. rewrite <- Heq in He1. congruence.
Qed.

(** Filing a new entry with a new promise and a new timer under an
    unused identifier keeps the invariant. *)
Lemma wf_with st id cb ms :
  wf st →
  activeTimeouts st !! id = None →
  cb_id cb = id →
  cb_controller cb = length (promises st) →
  (∀ c i cl, cb = CompletedCallback c i cl → cl = mkCleanup (length (timers st)) id) →
  wf (mkState
        (<[id := mkEntry (length (promises st)) (mkCleanup (length (timers st)) id)]>
           (activeTimeouts st))
        (promises st ++ [Pending])
        (timers st ++ [mkTimer cb ms Scheduled])
        (console st)).
Proof.
  intros Hwf Hid Hcbid Hcbc Hcbcl. split; cbn.
  - intros id' e' [[<- <-]|[Hne Hid']]%lookup_insert_Some; cbn.
    + split; [done|]. split; [by apply list_lookup_middle|].
      eexists. split; [by apply list_lookup_middle|]. done.
    + destruct (wf_entry st Hwf _ _ Hid') as (Hcl' & Hp' & t' & Ht' & Hrest).
      split; [done|]. split.
      * rewrite lookup_app_l; [done|]. by eapply lookup_lt_Some.
      * exists t'. split; [|done]. rewrite lookup_app_l; [done|].
        by eapply lookup_lt_Some.
  - intros id1 id2 e1 e2 [[<- <-]|[Hne1 H1]]%lookup_insert_Some
      [[<- <-]|[Hne2 H2]]%lookup_insert_Some; cbn; try done.
    + intros Heq. destruct (wf_entry st Hwf _ _ H2) as (_ & Hp & _).
      apply lookup_lt_Some in Hp. lia.
    + intros Heq. destruct (wf_entry st Hwf _ _ H1) as (_ & Hp & _).
      apply lookup_lt_Some in Hp. lia.
    + by apply (wf_controller st Hwf).
  - intros h1 t1 Hh1 Hs1. apply lookup_app_Some in Hh1 as [Hh1|[Hlen Hh1]].
    + destruct (wf_timer st Hwf _ _ Hh1 Hs1) as (e1 & He1 & Hh).
      exists e1. split; [|done]. rewrite lookup_insert_ne; [done|]. congruence.
    + apply list_lookup_singleton_Some in Hh1 as [Hz <-]. cbn. rewrite Hcbid.
      eexists. split; [apply lookup_insert_eq|]. cbn. lia.
Qed.

(** A timer that fires belongs to an entry; it resolves the promise of
    that entry and takes the entry out. *)
Lemma fire_scheduled st h t :
  wf st →
  timers st !! h = Some t →
  status t = Scheduled →
  ∃ e, activeTimeouts st !! cb_id (tm_callback t) = Some e
       ∧ cl_timeout (cleanup e) = h
       ∧ fire h st
         = (Normal (),
            without e (settle (controller e) (Fulfilled (completion_message (tm_callback t)))
                         (promises st)) Fired st).
Proof.
  intros Hwf Ht Hs.
  destruct (wf_timer st Hwf _ _ Ht Hs) as (e & He & Hh).
  destruct (wf_entry st Hwf _ _ He) as (Hcl & _ & t' & Ht' & _ & _ & Hc & Hcleanup).
  rewrite Hh, Ht in Ht'. injection Ht' as <-.
  exists e. split; [done|]. split; [done|].
  unfold fire. rewrite Ht, Hs. unfold without. rewrite Hh, Hcl.
  destruct (tm_callback t) as [c i cl|c i] eqn:Hcb; cbn in *; subst c.
  - rewrite (Hcleanup _ _ _ eq_refl).
    unfold call_cleanup, mbind, M_bind, resolve, clearTimeout, activeTimeouts_delete.
    cbn. rewrite Hh, Hcl. do 2 f_equal.
    eapply set_status_retired; [by apply set_status_lookup_scheduled|done].
  - done.
Qed.

Lemma fire_retired st h :
  (∀ t, timers st !! h = Some t → status t ≠ Scheduled) →
  fire h st = (Normal (), st).
Proof.
  intros Hh. unfold fire. destruct (timers st !! h) as [t|]; [|done].
  specialize (Hh t eq_refl). by destruct (status t).
Qed.

(** *** The loop of the ['exit'] handler *)

Lemma for_of_keys_teardown ids :
  ∀ st, wf st →
  ∃ st',
    for_of_keys (guarded teardown_entry) ids st = (Normal (), st')
    ∧ wf st'
    ∧ console st' = console st
    ∧ (∀ id, activeTimeouts st' !! id
             = if decide (id ∈ ids) then None else activeTimeouts st !! id)
    ∧ (∀ id e, id ∈ ids → activeTimeouts st !! id = Some e →
         promises st' !! controller e = Some (Rejected (exiting id))
         ∧ ∃ t, timers st' !! cl_timeout (cleanup e) = Some t ∧ status t = Cleared)
    ∧ (∀ p s, promises st !! p = Some s → s ≠ Pending → promises st' !! p = Some s)
    ∧ (∀ h t, timers st !! h = Some t → status t ≠ Scheduled → timers st' !! h = Some t)
    ∧ (∀ p, unreferenced p st → promises st' !! p = promises st !! p).
Proof.
  induction ids as [|id ids IH]; intros st Hwf.
  { exists st. do 3 (split; [done|]). split.
    - intros id. rewrite decide_False; [done|]. apply not_elem_of_nil.
    - split; [|done]. intros id e Hin. by apply elem_of_nil in Hin. }
  cbn [for_of_keys]. unfold mbind at 1 2, M_bind, activeTimeouts_get.
  destruct (activeTimeouts st !! id) as [e|] eqn:Hid.
  - rewrite guarded_teardown_entry.
    set (st1 := without e _ Cleared st).
    destruct (wf_entry st Hwf _ _ Hid) as (Hcl & Hp & t & Ht & Hst & _).
    assert (wf st1) as Hwf1.
    { eapply wf_without; [done..|]. intros q Hq. by apply settle_lookup_ne. }
    assert (∀ id', activeTimeouts st1 !! id' = delete id (activeTimeouts st) !! id')
      as Hst1 by (intros; cbn; by rewrite Hcl).
    destruct (IH st1 Hwf1) as (st' & Hrun & Hwf' & Hcon & Hmap & Hent & Hps & Hts & Hun).
    exists st'. do 3 (split; [done|]). split; [|split; [|split; [|split]]].
    + intros id'. rewrite Hmap, Hst1.
      destruct (decide (id' = id)) as [->|Hne].
      { rewrite lookup_delete_eq, (decide_True (P := id ∈ id :: ids)); [by case_decide|].
        apply elem_of_cons. by left. }
      rewrite lookup_delete_ne by done.
      destruct (decide (id' ∈ ids)) as [Hin|Hnin].
      * rewrite decide_True; [done|]. apply elem_of_cons. by right.
      * rewrite decide_False; [done|]. by apply not_elem_of_cons.
    + intros id' e' Hin Hid'. destruct (decide (id' = id)) as [->|Hne].
      * assert (e' = e) as -> by congruence. split.
        -- eapply Hps; [|done]. cbn. by apply settle_lookup_pending.
        -- exists (mkTimer (tm_callback t) (tm_ms t) Cleared). split; [|done].
           apply Hts; [|done]. cbn. by apply set_status_lookup_scheduled.
      * apply Hent.
        -- apply elem_of_cons in Hin as [?|?]; [done|done].
        -- rewrite Hst1. by rewrite lookup_delete_ne.
    + intros p s Hp' Hs. eapply Hps; [|done]. cbn. by apply settle_lookup_settled.
    + intros h t' Ht' Hs. eapply Hts; [|done]. cbn. by apply set_status_lookup_retired.
    + intros p Hp'. rewrite Hun.
      * cbn. apply settle_lookup_ne. by apply (Hp' id e).
      * intros id' e'. rewrite Hst1. intros [_ ?]%lookup_delete_Some. by apply (Hp' id' e').
  - cbn. destruct (IH st Hwf) as (st' & Hrun & Hwf' & Hcon & Hmap & Hent & Hps & Hts & Hun).
    exists st'. do 3 (split; [done|]). split; [|split; [|done]].
    + intros id'. rewrite Hmap.
      destruct (decide (id' = id)) as [->|Hne].
      { rewrite (decide_True (P := id ∈ id :: ids)); [by case_decide|].
        apply elem_of_cons. by left. }
      destruct (decide (id' ∈ ids)) as [Hin|Hnin].
      * rewrite decide_True; [done|]. apply elem_of_cons. by right.
      * rewrite decide_False; [done|]. by apply not_elem_of_cons.
    + intros id' e' Hin Hid'. apply Hent; [|done].
      apply elem_of_cons in Hin as [->|]; [congruence|done].
Qed.

(** Visiting the keys of the registry, in whatever order, completes
    normally, leaves the registry empty, and has rejected the promise
    and cleared the timer of every entry. *)
Lemma teardown_all ids st :
  wf st →
  (∀ id, is_Some (activeTimeouts st !! id) → id ∈ ids) →
  ∃ st',
    for_of_keys (guarded teardown_entry) ids st = (Normal (), st')
    ∧ wf st'
    ∧ console st' = console st
    ∧ torn_down st st'
    ∧ (∀ p s, promises st !! p = Some s → s ≠ Pending → promises st' !! p = Some s)
    ∧ (∀ p, unreferenced p st → promises st' !! p = promises st !! p).
Proof.
  intros Hwf Hkeys.
  destruct (for_of_keys_teardown ids st Hwf)
    as (st' & Hrun & Hwf' & Hcon & Hmap & Hent & Hps & _ & Hun).
  exists st'. do 3 (split; [done|]). split; [split|done].
  - apply map_eq. intros id. rewrite Hmap, lookup_empty. case_decide as Hin; [done|].
    destruct (activeTimeouts st !! id) as [e|] eqn:Hid; [|done].
    exfalso. apply Hin, Hkeys. by rewrite Hid.
  - intros id e Hid. destruct (Hent id e) as [Hp Ht]; [|done|by eexists].
    apply Hkeys. by rewrite Hid.
Qed.

Lemma exit_handler_teardown st :
  wf st →
  ∃ st',
    exit_handler st = (Normal (), st')
    ∧ wf st'
    ∧ console st' = console st
    ∧ torn_down st st'
    ∧ (∀ p s, promises st !! p = Some s → s ≠ Pending → promises st' !! p = Some s)
    ∧ (∀ p, unreferenced p st → promises st' !! p = promises st !! p).
Proof.
  intros Hwf. apply teardown_all; [done|].
  intros id [e Hid]. apply list_elem_of_fmap. exists (id, e).
  split; [done|]. by apply elem_of_map_to_list.
Qed.

Theorem wf_step a st : wf st → enabled a st → wf (step a st).
Proof.
  intros Hwf Hen. destruct a as [ms id|id reason|id newMs|h|]; cbn [step].
  - rewrite waitWithId_eq. cbn [snd]. apply wf_with; try done.
    by intros c i cl [= _ _ <-].
  - destruct (activeTimeouts st !! id) as [e|] eqn:Hid.
    + rewrite (cancelWait_present _ _ _ e) by done. cbn [snd].
      eapply wf_without; [done..|]. intros q Hq. by apply settle_lookup_ne.
    + by rewrite cancelWait_absent.
  - destruct (activeTimeouts st !! id) as [e|] eqn:Hid.
    + rewrite (updateWait_present _ _ _ e) by done. cbn [snd].
      destruct (wf_entry st Hwf _ _ Hid) as (Hcl & _).
      apply wf_with; try done.
      * by eapply wf_without.
      * cbn. rewrite Hcl. apply lookup_delete_eq.
    + by rewrite updateWait_absent.
  - destruct (timers st !! h) as [t|] eqn:Ht.
    + destruct (status t) eqn:Hs.
      * destruct (fire_scheduled st h t Hwf Ht Hs) as (e & He & _ & ->). cbn [snd].
        eapply wf_without; [done..|]. intros q Hq. by apply settle_lookup_ne.
      * rewrite fire_retired; [done|]. congruence.
      * rewrite fire_retired; [done|]. congruence.
    + rewrite fire_retired; [done|]. congruence.
  - by destruct (exit_handler_teardown st Hwf) as (st' & -> & Hwf' & _).
Qed.

Theorem reachable_wf st : reachable st → wf st.
Proof. induction 1; [apply wf_initial|by apply wf_step]. Qed.

(** *** Identifiers that are not registered *)

Lemma for_of_keys_teardown_absent id ids :
  ∀ st, activeTimeouts st !! id = None →
        activeTimeouts (for_of_keys (guarded teardown_entry) ids st).2 !! id = None.
Proof.
  induction ids as [|id' ids IH]; intros st Hid; [done|].
  cbn [for_of_keys]. unfold mbind at 1 2, M_bind, activeTimeouts_get.
  destruct (activeTimeouts st !! id') as [e|]; [|by apply IH].
  rewrite guarded_teardown_entry. apply IH. cbn.
  apply lookup_delete_None. by right.
Qed.

(** Only [waitWithId] brings an identifier into the registry. *)
Lemma absent_step id a st :
  activeTimeouts st !! id = None →
  ¬ creates id a →
  activeTimeouts (step a st) !! id = None.
Proof.
  intros Hid Hcr. destruct a as [ms id'|id' reason|id' newMs|h|]; cbn [step].
  - rewrite waitWithId_eq. cbn. rewrite lookup_insert_ne; [done|]. exact Hcr.
  - destruct (activeTimeouts st !! id') as [e|] eqn:Hid'.
    + rewrite (cancelWait_present _ _ _ e) by done. cbn.
      apply lookup_delete_None. by right.
    + by rewrite cancelWait_absent.
  - destruct (activeTimeouts st !! id') as [e|] eqn:Hid'.
    + rewrite (updateWait_present _ _ _ e) by done. cbn.
      rewrite lookup_insert_ne by congruence.
      apply lookup_delete_None. by right.
    + by rewrite updateWait_absent.
  - unfold fire. destruct (timers st !! h) as [t|]; [|done].
    destruct (status t); [|done..].
    destruct (tm_callback t); cbn; apply lookup_delete_None; by right.
  - by apply for_of_keys_teardown_absent.
Qed.

Lemma absent_run id acts :
  ∀ st, activeTimeouts st !! id = None →
        Forall (λ a, ¬ creates id a) acts →
        activeTimeouts (run acts st) !! id = None.
Proof.
  induction acts as [|a acts IH]; intros st Hid Hacts; [done|].
  apply Forall_cons in Hacts as [Ha Hacts].
  apply IH; [by apply absent_step|done].
Qed.

(** *** Promises that no entry refers to *)

Lemma unreferenced_without p e ps s st :
  unreferenced p st → unreferenced p (without e ps s st).
Proof.
  intros Hp id' e' Hid'. cbn in Hid'.
  apply lookup_delete_Some in Hid' as [_ Hid']. by apply (Hp id' e').
Qed.

(** No operation settles a promise that no entry refers to. *)
Lemma unreferenced_step p s a st :
  wf st →
  enabled a st →
  promises st !! p = Some s →
  unreferenced p st →
  promises (step a st) !! p = Some s ∧ unreferenced p (step a st).
Proof.
  intros Hwf Hen Hp Hun. pose proof (lookup_lt_Some _ _ _ Hp) as Hlt.
  destruct a as [ms id|id reason|id newMs|h|]; cbn [step].
  - rewrite waitWithId_eq. cbn [snd]. split; cbn.
    + by rewrite lookup_app_l.
    + unfold unreferenced. cbn.
      intros id' e' [[<- <-]|[_ Hid']]%lookup_insert_Some; cbn; [lia|by apply (Hun id' e')].
  - destruct (activeTimeouts st !! id) as [e|] eqn:Hid.
    + rewrite (cancelWait_present _ _ _ e) by done. cbn [snd]. split.
      * cbn. rewrite settle_lookup_ne; [done|]. by apply (Hun id e).
      * by apply unreferenced_without.
    + by rewrite cancelWait_absent.
  - destruct (activeTimeouts st !! id) as [e|] eqn:Hid.
    + rewrite (updateWait_present _ _ _ e) by done. cbn [snd]. split; cbn.
      * by rewrite lookup_app_l.
      * unfold unreferenced. cbn.
        intros id' e' [[<- <-]|[_ Hid']]%lookup_insert_Some; cbn; [lia|].
        apply lookup_delete_Some in Hid' as [_ Hid']. by apply (Hun id' e').
    + by rewrite updateWait_absent.
  - destruct (timers st !! h) as [t|] eqn:Ht.
    2:{ rewrite fire_retired; [done|]. congruence. }
    destruct (status t) eqn:Hs.
    2,3: rewrite fire_retired; [done|]; congruence.
    destruct (fire_scheduled st h t Hwf Ht Hs) as (e & He & _ & ->). cbn [snd]. split.
    + cbn. rewrite settle_lookup_ne; [done|]. by apply (Hun _ e He).
    + by apply unreferenced_without.
  - destruct (exit_handler_teardown st Hwf) as (st' & -> & _ & _ & [Hempty _] & _ & Hsame).
    cbn [snd]. split; [by rewrite Hsame|].
    intros id e. by rewrite Hempty, lookup_empty.
Qed.

Lemma unreferenced_run p s acts :
  ∀ st, wf st → valid acts st →
        promises st !! p = Some s → unreferenced p st →
        promises (run acts st) !! p = Some s.
Proof.
  induction acts as [|a acts IH]; intros st Hwf Hv Hp Hun; [done|].
  destruct Hv as [Hen Hv].
  destruct (unreferenced_step p s a st Hwf Hen Hp Hun) as [Hp' Hun'].
  apply IH; [by apply wf_step|done..].
Qed.

(** *** Runs of the test suite *)

Example natural_timeout_completion :
  promises (run [Create 100 "a"; Fire 0] initial) !! 0%nat
  = Some (Fulfilled (VString "Completed timeout ID: a"))
  ∧ activeTimeouts (run [Create 100 "a"; Fire 0] initial) = ∅.
Proof. split; [reflexivity|]. apply map_eq. intros id. vm_compute. by destruct id. Qed.

Example update_timeout :
  promises (run [Create 500 "a"; Update "a" 100; Fire 1] initial)
  = [Pending; Fulfilled (VString "Updated timeout ID: a")]
  ∧ status <$> timers (run [Create 500 "a"; Update "a" 100; Fire 1] initial)
    = [Cleared; Fired].
Proof. by vm_compute. Qed.

Example cleanup_after_cancellation :
  (cancelWait "a" None (run [Create 100 "a"] initial)).1 = Normal true
  ∧ (cancelWait "a" None (run [Create 100 "a"; Cancel "a" None] initial)).1 = Normal false.
Proof. by vm_compute. Qed.

(** *** Cancellation, update and teardown *)

Lemma reachable_one_delay : reachable one_delay.
Proof. apply reachable_step; [apply reachable_initial|done]. Qed.

Lemma one_delay_entry :
  activeTimeouts one_delay !! "a" = Some (mkEntry 0 (mkCleanup 0 "a")).
Proof. unfold one_delay. cbn [step]. rewrite waitWithId_eq. apply lookup_insert_eq. Qed.

(** An identifier that is not registered is not found. *)
Lemma not_found id reason newMs st :
  activeTimeouts st !! id = None →
  cancelWait id reason st = (Normal false, st)
  ∧ updateWait id newMs st
    = (Abrupt (VTimeoutError (new_TimeoutError id (Some "Timeout not found"))), st).
Proof. intros Hid. by rewrite cancelWait_absent, updateWait_absent. Qed.

(** Each of the removing actions takes the entry out. *)
Lemma removes_step st id e a :
  wf st →
  activeTimeouts st !! id = Some e →
  removes id e a →
  activeTimeouts (step a st) !! id = None.
Proof.
  intros Hwf Hid Hrem.
  destruct (wf_entry st Hwf _ _ Hid) as (Hcl & _ & t & Ht & Hs & Hcb & _).
  destruct a as [ms id'|id' reason|id' newMs|h|]; cbn in Hrem; try done; cbn [step].
  - subst id'. rewrite (cancelWait_present _ _ _ e) by done. cbn.
    rewrite Hcl. apply lookup_delete_eq.
  - subst h. destruct (fire_scheduled st _ t Hwf Ht Hs) as (e' & He' & _ & ->).
    rewrite Hcb in He'. assert (e' = e) as -> by congruence. cbn.
    rewrite Hcl. apply lookup_delete_eq.
  - destruct (exit_handler_teardown st Hwf) as (st' & -> & _ & _ & [Hempty _] & _).
    cbn. by rewrite Hempty.
Qed.

(** C6: for an identifier with no entry, [cancelWait] returns [false]
    and leaves the state as it is, and [updateWait] throws a
    [TimeoutError] whose message is ["Timeout not found"]. *)
Theorem unknown_identifier (id : string) (reason : option string) (newMs : Z)
    (st : state) :
  activeTimeouts st !! id = None →
  cancelWait id reason st = (Normal false, st)
  ∧ ∃ err,
      updateWait id newMs st = (Abrupt (VTimeoutError err), st)
      ∧ te_message err = "Timeout not found"
      ∧ te_name err = "TimeoutError"
      ∧ code err = "ETIMEOUT"
      ∧ te_id err = id.
Proof.
  intros Hid. destruct (not_found id reason newMs st Hid) as [-> ->].
  split; [done|]. by eexists.
Qed.

Lemma unknown_identifier_witness :
  activeTimeouts initial !! "fake-id" = None ∧
  cancelWait "fake-id" None initial = (Normal false, initial)
  ∧ ∃ err,
      updateWait "fake-id" 100 initial = (Abrupt (VTimeoutError err), initial)
      ∧ te_message err = "Timeout not found"
      ∧ te_name err = "TimeoutError"
      ∧ code err = "ETIMEOUT"
      ∧ te_id err = "fake-id".
Proof.
  split; [reflexivity|].
  apply (unknown_identifier "fake-id" None 100 initial). reflexivity.
Defined.

(** C5, as the code has it: cancelling a registered identifier returns
    [true] and rejects its promise with a [TimeoutError] whose message
    is the reason when a non-empty reason is given and
    [Timeout {id} cancelled] otherwise; every later [cancelWait] on the
    identifier returns [false], as long as the identifier is not issued
    again. *)
Theorem cancel_live_identifier (st : state) (id : string) (e : entry)
    (reason : option string) :
  reachable st →
  activeTimeouts st !! id = Some e →
  ∃ st' err,
    cancelWait id reason st = (Normal true, st')
    ∧ promises st' !! controller e = Some (Rejected (VTimeoutError err))
    ∧ te_name err = "TimeoutError"
    ∧ te_id err = id
    ∧ (∀ r, reason = Some r → r ≠ "" → te_message err = r)
    ∧ (reason = None ∨ reason = Some "" → te_message err = default_message id)
    ∧ ∀ acts reason',
        Forall (λ a, ¬ creates id a) acts →
        cancelWait id reason' (run acts st') = (Normal false, run acts st').
Proof.
  intros Hr Hid. pose proof (reachable_wf st Hr) as Hwf.
  destruct (wf_entry st Hwf _ _ Hid) as (Hcl & Hp & _).
  rewrite (cancelWait_present _ _ _ e) by done.
  eexists _, _. split; [done|]. split; [by apply settle_lookup_pending|].
  do 2 (split; [done|]). split; [|split].
  - intros r -> Hne. cbn. by rewrite decide_False.
  - by intros [->| ->].
  - intros acts reason' Hacts. apply cancelWait_absent, absent_run; [|done].
    cbn. rewrite Hcl. apply lookup_delete_eq.
Qed.

Lemma cancel_live_identifier_witness :
  reachable one_delay ∧
  activeTimeouts one_delay !! "a" = Some (mkEntry 0 (mkCleanup 0 "a")) ∧
  ∃ st' err,
    cancelWait "a" (Some "Test cancellation") one_delay = (Normal true, st')
    ∧ promises st' !! controller (mkEntry 0 (mkCleanup 0 "a"))
      = Some (Rejected (VTimeoutError err))
    ∧ te_name err = "TimeoutError"
    ∧ te_id err = "a"
    ∧ (∀ r, Some "Test cancellation" = Some r → r ≠ "" → te_message err = r)
    ∧ (Some "Test cancellation" = None ∨ Some "Test cancellation" = Some "" →
       te_message err = default_message "a")
    ∧ ∀ acts reason',
        Forall (λ a, ¬ creates "a" a) acts →
        cancelWait "a" reason' (run acts st') = (Normal false, run acts st').
Proof.
  split; [apply reachable_one_delay|]. split; [apply one_delay_entry|].
  apply (cancel_live_identifier one_delay "a" (mkEntry 0 (mkCleanup 0 "a"))
           (Some "Test cancellation"));
    [apply reachable_one_delay|apply one_delay_entry].
Defined.

(** C5 as stated fails when the reason supplied is the empty string: the
    message of the error is then the default one, not the reason. *)
Lemma cancel_with_empty_reason :
  ∃ st' err,
    cancelWait "a" (Some "") one_delay = (Normal true, st')
    ∧ promises st' !! 0%nat = Some (Rejected (VTimeoutError err))
    ∧ te_message err = "Timeout a cancelled"
    ∧ te_message err ≠ "".
Proof.
  rewrite (cancelWait_present _ _ _ _ one_delay_entry).
  eexists _, _. split; [done|]. by split.
Qed.

(** C3, as the code has it: in every reachable state the registry
    invariant holds and an identifier has at most one entry; once the
    entry of an identifier has been removed by cancellation, by the
    firing of its timer or by the ['exit'] handler, [cancelWait] on the
    identifier returns [false] and [updateWait] throws the not-found
    [TimeoutError], until the identifier is issued again.  An update
    replaces the entry and keeps the identifier registered. *)
Theorem registry_invariant (st : state) :
  reachable st →
  wf st
  ∧ (∀ id e1 e2,
       activeTimeouts st !! id = Some e1 → activeTimeouts st !! id = Some e2 → e1 = e2)
  ∧ (∀ id e a acts reason newMs,
       activeTimeouts st !! id = Some e →
       removes id e a →
       Forall (λ a', ¬ creates id a') acts →
       let st' := run acts (step a st) in
       cancelWait id reason st' = (Normal false, st')
       ∧ updateWait id newMs st'
         = (Abrupt (VTimeoutError (new_TimeoutError id (Some "Timeout not found"))), st'))
  ∧ (∀ id e newMs,
       activeTimeouts st !! id = Some e →
       ∃ e', activeTimeouts (step (Update id newMs) st) !! id = Some e'
             ∧ controller e' ≠ controller e
             ∧ wf (step (Update id newMs) st)).
Proof.
  intros Hr. pose proof (reachable_wf st Hr) as Hwf.
  split; [done|]. split; [congruence|]. split.
  - intros id e a acts reason newMs Hid Hrem Hacts st'.
    apply not_found. apply absent_run; [|done]. by eapply removes_step.
  - intros id e newMs Hid.
    destruct (wf_entry st Hwf _ _ Hid) as (_ & Hp & _).
    apply lookup_lt_Some in Hp.
    eexists. split; [|split; [|by apply wf_step]].
    + cbn [step]. rewrite (updateWait_present _ _ _ e) by done. apply lookup_insert_eq.
    + cbn. lia.
Qed.

Lemma registry_invariant_witness :
  reachable one_delay ∧
  wf one_delay
  ∧ (∀ id e1 e2,
       activeTimeouts one_delay !! id = Some e1 →
       activeTimeouts one_delay !! id = Some e2 → e1 = e2)
  ∧ (∀ id e a acts reason newMs,
       activeTimeouts one_delay !! id = Some e →
       removes id e a →
       Forall (λ a', ¬ creates id a') acts →
       let st' := run acts (step a one_delay) in
       cancelWait id reason st' = (Normal false, st')
       ∧ updateWait id newMs st'
         = (Abrupt (VTimeoutError (new_TimeoutError id (Some "Timeout not found"))), st'))
  ∧ (∀ id e newMs,
       activeTimeouts one_delay !! id = Some e →
       ∃ e', activeTimeouts (step (Update id newMs) one_delay) !! id = Some e'
             ∧ controller e' ≠ controller e
             ∧ wf (step (Update id newMs) one_delay)).
Proof.
  split; [apply reachable_one_delay|].
  apply (registry_invariant one_delay). apply reachable_one_delay.
Defined.

(** C3 as stated fails for update-replacement: after [updateWait] has
    replaced the entry of ["a"], a [cancelWait] on ["a"] returns [true]
    and a further [updateWait] returns a promise. *)
Lemma update_keeps_identifier :
  reachable (step (Update "a" 100) one_delay)
  ∧ (cancelWait "a" None (step (Update "a" 100) one_delay)).1 = Normal true
  ∧ (updateWait "a" 1000 (step (Update "a" 100) one_delay)).1 = Normal 2%nat.
Proof.
  assert (activeTimeouts (step (Update "a" 100) one_delay) !! "a"
          = Some (mkEntry 1 (mkCleanup 1 "a"))) as Hid.
  { cbn [step]. rewrite (updateWait_present _ _ _ _ one_delay_entry).
    apply lookup_insert_eq. }
  split; [apply reachable_step; [apply reachable_one_delay|done]|].
  by rewrite (cancelWait_present _ _ _ _ Hid), (updateWait_present _ _ _ _ Hid).
Qed.

(** C4: [updateWait] on a registered identifier clears the timer of the
    old entry and leaves the old promise pending, files a new pending
    promise and a new scheduled timer under the same identifier, and
    returns the new promise; nothing that happens later settles the old
    promise; a [cancelWait] after the update rejects the new promise and
    leaves the old one pending. *)
Theorem update_live_identifier (st : state) (id : string) (e : entry) (newMs : Z) :
  reachable st →
  activeTimeouts st !! id = Some e →
  ∃ st' p' h',
    updateWait id newMs st = (Normal p', st')
    ∧ (∃ t, timers st' !! cl_timeout (cleanup e) = Some t ∧ status t = Cleared)
    ∧ promises st' !! controller e = Some Pending
    ∧ p' ≠ controller e
    ∧ promises st' !! p' = Some Pending
    ∧ h' ≠ cl_timeout (cleanup e)
    ∧ timers st' !! h' = Some (mkTimer (UpdatedCallback p' id) newMs Scheduled)
    ∧ activeTimeouts st' !! id = Some (mkEntry p' (mkCleanup h' id))
    ∧ (∀ acts, valid acts st' → promises (run acts st') !! controller e = Some Pending)
    ∧ (∀ reason, ∃ st'',
         cancelWait id reason st' = (Normal true, st'')
         ∧ promises st'' !! p' = Some (Rejected (VTimeoutError (new_TimeoutError id reason)))
         ∧ promises st'' !! controller e = Some Pending).
Proof.
  intros Hr Hid. pose proof (reachable_wf st Hr) as Hwf.
  destruct (wf_entry st Hwf _ _ Hid) as (Hcl & Hp & t & Ht & Hs & _).
  pose proof (lookup_lt_Some _ _ _ Hp) as Hplt.
  pose proof (lookup_lt_Some _ _ _ Ht) as Htlt.
  pose proof (wf_step (Update id newMs) st Hwf I) as Hwf'.
  cbn [step] in Hwf'. rewrite (updateWait_present _ _ _ e) in * by done.
  cbn [snd] in Hwf'. cbn zeta in *.
  set (st' := mkState _ _ _ _) in *.
  assert (promises st' !! controller e = Some Pending) as Hold.
  { cbn. by rewrite lookup_app_l. }
  assert (activeTimeouts st' !! id
          = Some (mkEntry (length (promises st))
                    (mkCleanup (length (set_status (cl_timeout (cleanup e)) Cleared
                                          (timers st))) id))) as Hnew.
  { cbn. apply lookup_insert_eq. }
  assert (promises st' !! length (promises st) = Some Pending) as Hpnew.
  { cbn. by apply list_lookup_middle. }
  exists st', (length (promises st)), (length (set_status (cl_timeout (cleanup e)) Cleared
                                                 (timers st))).
  split; [done|]. split.
  { exists (mkTimer (tm_callback t) (tm_ms t) Cleared). split; [|done]. cbn.
    rewrite lookup_app_l by (by rewrite length_set_status).
    by apply set_status_lookup_scheduled. }
  split; [done|]. split; [lia|]. split; [done|].
  split; [rewrite length_set_status; lia|].
  split; [cbn; by apply list_lookup_middle|]. split; [done|]. split.
  - intros acts Hv. apply unreferenced_run; try done.
    intros id' e'. cbn. intros [[<- <-]|[Hne Hid']]%lookup_insert_Some; cbn; [lia|].
    apply lookup_delete_Some in Hid' as [_ Hid'].
    intros Heq. apply Hne.
    by apply (wf_controller st Hwf id id' e e').
  - intros reason. rewrite (cancelWait_present _ _ _ _ Hnew).
    eexists. split; [done|]. cbn [without promises controller]. split.
    + by apply settle_lookup_pending.
    + rewrite settle_lookup_ne; [done|lia].
Qed.

Lemma update_live_identifier_witness :
  reachable one_delay ∧
  activeTimeouts one_delay !! "a" = Some (mkEntry 0 (mkCleanup 0 "a")) ∧
  ∃ st' p' h',
    updateWait "a" 1000 one_delay = (Normal p', st')
    ∧ (∃ t, timers st' !! cl_timeout (cleanup (mkEntry 0 (mkCleanup 0 "a"))) = Some t
            ∧ status t = Cleared)
    ∧ promises st' !! controller (mkEntry 0 (mkCleanup 0 "a")) = Some Pending
    ∧ p' ≠ controller (mkEntry 0 (mkCleanup 0 "a"))
    ∧ promises st' !! p' = Some Pending
    ∧ h' ≠ cl_timeout (cleanup (mkEntry 0 (mkCleanup 0 "a")))
    ∧ timers st' !! h' = Some (mkTimer (UpdatedCallback p' "a") 1000 Scheduled)
    ∧ activeTimeouts st' !! "a" = Some (mkEntry p' (mkCleanup h' "a"))
    ∧ (∀ acts, valid acts st' →
         promises (run acts st') !! controller (mkEntry 0 (mkCleanup 0 "a")) = Some Pending)
    ∧ (∀ reason, ∃ st'',
         cancelWait "a" reason st' = (Normal true, st'')
         ∧ promises st'' !! p' = Some (Rejected (VTimeoutError (new_TimeoutError "a" reason)))
         ∧ promises st'' !! controller (mkEntry 0 (mkCleanup 0 "a")) = Some Pending).
Proof.
  split; [apply reachable_one_delay|]. split; [apply one_delay_entry|].
  apply (update_live_identifier one_delay "a" (mkEntry 0 (mkCleanup 0 "a")) 1000);
    [apply reachable_one_delay|apply one_delay_entry].
Defined.

(** *** Exceptions in the ['exit'] handler *)

Lemma guarded_swallows body id e st x st1 :
  body id e st = (Abrupt x, st1) →
  guarded body id e st
  = (Normal (),
     mkState (activeTimeouts st1) (promises st1) (timers st1)
       (console st1 ++ [("Cleanup error:", x)])).
Proof. intros Hbody. unfold guarded, try_catch. by rewrite Hbody. Qed.

Lemma guarded_normal body id e st : ∃ st', guarded body id e st = (Normal (), st').
Proof.
  unfold guarded, try_catch. destruct (body id e st) as [[[]|x] st1]; by eexists.
Qed.

Lemma for_of_keys_guarded_normal body ids :
  ∀ st, ∃ st', for_of_keys (guarded body) ids st = (Normal (), st').
Proof.
  induction ids as [|id ids IH]; intros st; [by eexists|].
  cbn [for_of_keys]. unfold mbind at 1 2, M_bind, activeTimeouts_get.
  destruct (activeTimeouts st !! id) as [e|]; [|apply IH].
  destruct (guarded_normal body id e st) as [st1 ->]. apply IH.
Qed.

(** One turn of the loop with throws: the turn completes normally, it
    touches nothing but the entry it visits, and it leaves that entry
    torn down, or the thrown value on the console. *)
Lemma guarded_faulty_turn faults st id e :
  cl_id (cleanup e) = id →
  promises st !! controller e = Some Pending →
  (∃ t, timers st !! cl_timeout (cleanup e) = Some t ∧ status t = Scheduled) →
  ∃ st1,
    guarded (teardown_entry_with faults) id e st = (Normal (), st1)
    ∧ (∀ id', id' ≠ id → activeTimeouts st1 !! id' = activeTimeouts st !! id')
    ∧ (∀ id', activeTimeouts st !! id' = None → activeTimeouts st1 !! id' = None)
    ∧ (∀ q, q ≠ controller e → promises st1 !! q = promises st !! q)
    ∧ (∀ h, h ≠ cl_timeout (cleanup e) → timers st1 !! h = timers st !! h)
    ∧ (∀ p s, promises st !! p = Some s → s ≠ Pending → promises st1 !! p = Some s)
    ∧ (∀ h t, timers st !! h = Some t → status t ≠ Scheduled → timers st1 !! h = Some t)
    ∧ (∀ l, l ∈ console st → l ∈ console st1)
    ∧ torn_down_or_logged faults id e st1.
Proof.
  intros Hcl Hp (t & Ht & Hs).
  unfold guarded, teardown_entry_with, torn_down_or_logged.
  destruct (faults id) as [|x|x]; eexists; (split; [reflexivity|]); cbn; rewrite ?Hcl.
  - split; [by intros; apply lookup_delete_ne|].
    split; [by intros; apply lookup_delete_None; right|].
    split; [by intros; apply settle_lookup_ne|].
    split; [by intros; apply set_status_lookup_ne|].
    split; [by intros; apply settle_lookup_settled|].
    split; [by intros; apply set_status_lookup_retired|].
    split; [done|]. split; [apply lookup_delete_eq|].
    split; [by apply settle_lookup_pending|].
    eexists. split; [by apply set_status_lookup_scheduled|done].
  - do 6 (split; [done|]). split; [by intros; apply elem_of_app; left|].
    apply elem_of_app. right. by apply list_elem_of_singleton.
  - do 2 (split; [done|]).
    split; [by intros; apply settle_lookup_ne|]. split; [done|].
    split; [by intros; apply settle_lookup_settled|]. split; [done|].
    split; [by intros; apply elem_of_app; left|].
    apply elem_of_app. right. by apply list_elem_of_singleton.
Qed.

(** The loop with throws visits every entry: an exception at one entry
    does not keep the entries after it from being torn down. *)
Lemma for_of_keys_faulty faults st0 :
  wf st0 →
  ∀ ids, NoDup ids →
  ∀ st,
    (∀ id e, id ∈ ids → activeTimeouts st !! id = Some e →
       activeTimeouts st0 !! id = Some e
       ∧ promises st !! controller e = Some Pending
       ∧ ∃ t, timers st !! cl_timeout (cleanup e) = Some t ∧ status t = Scheduled) →
    ∃ st',
      for_of_keys (guarded (teardown_entry_with faults)) ids st = (Normal (), st')
      ∧ (∀ id e, id ∈ ids → activeTimeouts st !! id = Some e →
           torn_down_or_logged faults id e st')
      ∧ (∀ id, activeTimeouts st !! id = None → activeTimeouts st' !! id = None)
      ∧ (∀ p s, promises st !! p = Some s → s ≠ Pending → promises st' !! p = Some s)
      ∧ (∀ h t, timers st !! h = Some t → status t ≠ Scheduled → timers st' !! h = Some t)
      ∧ (∀ l, l ∈ console st → l ∈ console st').
Proof.
  intros Hwf ids Hnodup. induction Hnodup as [|id ids Hnotin Hnodup IH]; intros st Hst.
  { exists st. split; [done|]. split; [|done]. intros id e Hin. by apply elem_of_nil in Hin. }
  cbn [for_of_keys]. unfold mbind at 1 2, M_bind, activeTimeouts_get.
  destruct (activeTimeouts st !! id) as [e|] eqn:Hid.
  - destruct (Hst id e) as (Hid0 & Hp & Ht); [apply elem_of_cons; by left|done|].
    destruct (wf_entry st0 Hwf _ _ Hid0) as (Hcl & _).
    destruct (guarded_faulty_turn faults st id e Hcl Hp Ht)
      as (st1 & -> & Hother & Habsent & Hps & Hts & Hsettled & Hretired & Hcon & Hdone).
    destruct (IH st1) as (st' & -> & Hent & Habsent' & Hsettled' & Hretired' & Hcon').
    { intros id' e' Hin' Hid'. assert (id' ≠ id) as Hne by (intros ->; done).
      rewrite Hother in Hid' by done.
      destruct (Hst id' e') as (Hid0' & Hp' & t' & Ht' & Hs');
        [apply elem_of_cons; by right|done|].
      split; [done|]. split.
      - rewrite Hps; [done|]. intros Heq.
        by apply Hne, (wf_controller st0 Hwf id' id e' e).
      - exists t'. split; [|done]. rewrite Hts; [done|]. intros Heq.
        by apply Hne, (wf_timeout_inj st0 id' id e' e). }
    exists st'. split; [done|]. split;
      [|split; [|split; [|split]]; intros; [apply Habsent', Habsent
                                            |apply Hsettled'; [apply Hsettled|]
                                            |apply Hretired'; [apply Hretired|]
                                            |apply Hcon', Hcon]; done].
    intros id' e' [->|Hin']%elem_of_cons Hid'.
    + assert (e' = e) as -> by congruence. clear Hid'.
      unfold torn_down_or_logged in *. destruct (faults id) as [|x|x]; [|by eauto..].
      destruct Hdone as (Hgone & Hrej & t & Hcleared & Hstatus).
      split; [by eauto|]. split; [by apply Hsettled'|].
      exists t. split; [|done]. apply Hretired'; [done|]. by rewrite Hstatus.
    + assert (id' ≠ id) as Hne by (intros ->; done).
      apply Hent; [done|]. by rewrite Hother.
  - cbn. destruct (IH st) as (st' & -> & Hent & Hrest).
    { intros id' e' Hin' Hid'. apply Hst; [apply elem_of_cons; by right|done]. }
    exists st'. split; [done|]. split; [|done].
    intros id' e' [->|Hin']%elem_of_cons Hid'; [congruence|by apply Hent].
Qed.

(** C9: the ['exit'] handler completes normally and leaves no entry;
    the promise of every entry that was in the registry is rejected
    with a [TimeoutError] whose message is ["Process exiting"], and its
    timer is cleared; the order in which the entries are visited plays
    no part in this.  Whatever the statements of the [try] block are,
    the handler does not complete abruptly.  When these statements
    throw for some entries, in the rejection or in the cleanup, every
    thrown value is written to the console and every other entry is
    torn down all the same. *)
Theorem exit_handler_teardown_all (st : state) (faults : string → fault) :
  reachable st →
  (∃ st', exit_handler st = (Normal (), st') ∧ torn_down st st')
  ∧ (∀ ids,
       (∀ id, is_Some (activeTimeouts st !! id) → id ∈ ids) →
       ∃ st', for_of_keys (guarded teardown_entry) ids st = (Normal (), st')
              ∧ torn_down st st')
  ∧ (∀ body, ∃ st', exit_handler_with body st = (Normal (), st'))
  ∧ (∃ st',
       exit_handler_with (teardown_entry_with faults) st = (Normal (), st')
       ∧ ∀ id e, activeTimeouts st !! id = Some e → torn_down_or_logged faults id e st')
  ∧ (∀ ids,
       NoDup ids →
       (∀ id, is_Some (activeTimeouts st !! id) → id ∈ ids) →
       ∃ st',
         for_of_keys (guarded (teardown_entry_with faults)) ids st = (Normal (), st')
         ∧ ∀ id e, activeTimeouts st !! id = Some e → torn_down_or_logged faults id e st').
Proof.
  intros Hr. pose proof (reachable_wf st Hr) as Hwf.
  assert (∀ ids, NoDup ids →
            (∀ id, is_Some (activeTimeouts st !! id) → id ∈ ids) →
            ∃ st',
              for_of_keys (guarded (teardown_entry_with faults)) ids st = (Normal (), st')
              ∧ ∀ id e, activeTimeouts st !! id = Some e →
                        torn_down_or_logged faults id e st') as Hfaulty.
  { intros ids Hnodup Hkeys.
    destruct (for_of_keys_faulty faults st Hwf ids Hnodup st) as (st' & Hrun & Hent & _).
    { intros id e _ Hid. destruct (wf_entry st Hwf _ _ Hid) as (_ & Hp & t & Ht & Hs & _).
      by eauto 10. }
    exists st'. split; [done|]. intros id e Hid. apply Hent; [|done].
    apply Hkeys. by rewrite Hid. }
  split; [|split; [|split; [|split]]].
  - destruct (exit_handler_teardown st Hwf) as (st' & Hrun & _ & _ & Htorn & _).
    by exists st'.
  - intros ids Hkeys.
    destruct (teardown_all ids st Hwf Hkeys) as (st' & Hrun & _ & _ & Htorn & _).
    by exists st'.
  - intros body. apply for_of_keys_guarded_normal.
  - apply Hfaulty; [apply NoDup_fst_map_to_list|].
    intros id [e Hid]. apply list_elem_of_fmap. exists (id, e).
    split; [done|]. by apply elem_of_map_to_list.
  - done.
Qed.

Lemma reachable_two_delays : reachable two_delays.
Proof. apply reachable_step; [apply reachable_one_delay|done]. Qed.

Lemma exit_handler_teardown_all_witness :
  reachable two_delays ∧
  (∃ st', exit_handler two_delays = (Normal (), st') ∧ torn_down two_delays st')
  ∧ (∀ ids,
       (∀ id, is_Some (activeTimeouts two_delays !! id) → id ∈ ids) →
       ∃ st', for_of_keys (guarded teardown_entry) ids two_delays = (Normal (), st')
              ∧ torn_down two_delays st')
  ∧ (∀ body, ∃ st', exit_handler_with body two_delays = (Normal (), st'))
  ∧ (∃ st',
       exit_handler_with (teardown_entry_with throws_for_a) two_delays = (Normal (), st')
       ∧ ∀ id e, activeTimeouts two_delays !! id = Some e →
                 torn_down_or_logged throws_for_a id e st')
  ∧ (∀ ids,
       NoDup ids →
       (∀ id, is_Some (activeTimeouts two_delays !! id) → id ∈ ids) →
       ∃ st',
         for_of_keys (guarded (teardown_entry_with throws_for_a)) ids two_delays
         = (Normal (), st')
         ∧ ∀ id e, activeTimeouts two_delays !! id = Some e →
                   torn_down_or_logged throws_for_a id e st').
Proof.
  split; [apply reachable_two_delays|].
  apply (exit_handler_teardown_all two_delays throws_for_a). apply reachable_two_delays.
Defined.

(** With a [try] block that throws for ["a"], the handler still rejects
    the promise of ["b"] and removes it; ["a"] stays as it was, and the
    thrown value is on the console. *)
Example exit_handler_goes_on_after_a_throw :
  ∀ ids, ids = ["a"; "b"] ∨ ids = ["b"; "a"] →
  ∃ st',
    for_of_keys (guarded (teardown_entry_with throws_for_a)) ids two_delays
    = (Normal (), st')
    ∧ promises st' = [Pending; Rejected (exiting "b")]
    ∧ status <$> timers st' = [Scheduled; Cleared]
    ∧ activeTimeouts st' !! "a" = Some (mkEntry 0 (mkCleanup 0 "a"))
    ∧ activeTimeouts st' !! "b" = None
    ∧ console st' = [("Cleanup error:", VString "boom")].
Proof. intros ids [-> | ->]; eexists; (split; [reflexivity|]); by vm_compute. Qed.

End RegistryFacts.

(** ** More about the retry executor *)

Module RetryMore.
Import Retry RetryFacts.

Lemma backoff_factor_default (b : value) :
  backoff_factor (if b is VUndefined then VString "fixed" else b) = backoff_factor b.
Proof. by destruct b. Qed.

(** X1: whatever the operation does, with [0 <= retries = r < 2^53] and
    delays that stay finite, it is invoked at least once and at most
    [r + 1] times, every invocation but the last fails, there is exactly
    one sleep between two consecutive invocations and none before the
    first or after the last, and the [i]-th sleep lasts the configured
    delay times the backoff factor to the power [i]. *)
Theorem retry_attempts_bounded {St} (fn : St → outcome * St) (opts : options)
    (r : Z) (s : St) :
  retries opts = Some r →
  0 ≤ r →
  countable r →
  finite (default 2000 (delay opts) * backoff_factor (backoff opts) ^ r) →
  ∃ o s' tr (n : nat) xs final,
    waitWithRetry fn opts s = Some (o, s', tr)
    ∧ (1 ≤ n)%nat
    ∧ Z.of_nat n ≤ r + 1
    ∧ calls fn n s = ((Threw <$> xs) ++ [final], s')
    ∧ invocations tr = n
    ∧ tr = Invoke :: mjoin ((λ i : nat,
             [Sleep (default 2000 (delay opts) * backoff_factor (backoff opts) ^ Z.of_nat i);
              Invoke]) <$> seq 1 (n - 1))
    ∧ sleeps tr = (λ i : nat,
        default 2000 (delay opts) * backoff_factor (backoff opts) ^ Z.of_nat i)
        <$> seq 1 (n - 1).
Proof.
  intros Hopts Hr _ _.
  destruct (waitWithRetry_total fn opts s) as [[[o s'] tr] Hrun].
  exists o, s', tr. unfold waitWithRetry in *. rewrite Hopts in *.
  cbn [from_option id] in *.
  destruct (while_loop_run fn _ _ _ _ _ _ _ _ _ _ Hr Hrun)
    as (n & xs & final & Hn & Hbound & Hcalls & -> & _).
  exists n, xs, final. split; [exact Hrun|]. rewrite backoff_factor_default.
  split; [done|]. split; [lia|]. split; [done|].
  split; [|split; [done|apply sleeps_failing_trace]].
  replace n with (S (n - 1)) at 2 by lia. apply invocations_failing_trace.
Qed.

Lemma retry_attempts_bounded_witness :
  retries (mkOptions (Some 3) (Some 100) (VString "exponential")) = Some 3 ∧
  0 ≤ 3 ∧
  countable 3 ∧
  finite (default 2000 (Some 100) * backoff_factor (VString "exponential") ^ 3) ∧
  ∃ o s' tr (n : nat) xs final,
    waitWithRetry third_time_lucky (mkOptions (Some 3) (Some 100) (VString "exponential"))
      0%nat = Some (o, s', tr)
    ∧ (1 ≤ n)%nat
    ∧ Z.of_nat n ≤ 3 + 1
    ∧ calls third_time_lucky n 0%nat = ((Threw <$> xs) ++ [final], s')
    ∧ invocations tr = n
    ∧ tr = Invoke :: mjoin ((λ i : nat,
             [Sleep (default 2000 (Some 100)
                     * backoff_factor (VString "exponential") ^ Z.of_nat i);
              Invoke]) <$> seq 1 (n - 1))
    ∧ sleeps tr = (λ i : nat,
        default 2000 (Some 100) * backoff_factor (VString "exponential") ^ Z.of_nat i)
        <$> seq 1 (n - 1).
Proof.
  assert (countable 3) as Hc by (by vm_compute).
  assert (finite (default 2000 (Some 100) * backoff_factor (VString "exponential") ^ 3))
    as Hf by (by vm_compute).
  split; [reflexivity|]. split; [lia|]. split; [exact Hc|]. split; [exact Hf|].
  apply (retry_attempts_bounded third_time_lucky
           (mkOptions (Some 3) (Some 100) (VString "exponential")) 3 0%nat);
    [reflexivity|lia|exact Hc|exact Hf].
Defined.



(** X3: with a negative [retries] the loop is not entered: the operation
    is not invoked, there is no sleep, and the call throws a
    [RetryError] with [attempts = 1], the configured delay as
    [finalDelay], and as [cause] a new [Error] with an empty message
    (no failure was seen). *)
Theorem retry_negative_retries {St} (fn : St → outcome * St) (opts : options)
    (r : Z) (s : St) :
  retries opts = Some r →
  r < 0 →
  ∃ e,
    waitWithRetry fn opts s = Some (Threw (VRetryError e), s, [])
    ∧ attempts e = 1
    ∧ finalDelay e = default 2000 (delay opts)
    ∧ cause e = VError "Error" ""
    ∧ re_message e = "Retry failed after 1 attempts".
Proof.
  intros Hopts Hr. unfold waitWithRetry. rewrite Hopts. cbn [from_option id].
  replace (Z.to_nat (r + 1)) with 0%nat by lia. cbn [while_loop].
  destruct (Z.leb_spec 0 r); [lia|]. by eexists.
Qed.

Lemma retry_negative_retries_witness :
  retries (mkOptions (Some (-1)) (Some 50) (VString "exponential")) = Some (-1) ∧
  -1 < 0 ∧
  ∃ e,
    waitWithRetry third_time_lucky (mkOptions (Some (-1)) (Some 50) (VString "exponential"))
      0%nat = Some (Threw (VRetryError e), 0%nat, [])
    ∧ attempts e = 1
    ∧ finalDelay e = default 2000 (Some 50)
    ∧ cause e = VError "Error" ""
    ∧ re_message e = "Retry failed after 1 attempts".
Proof.
  split; [reflexivity|]. split; [lia|].
  apply (retry_negative_retries third_time_lucky
           (mkOptions (Some (-1)) (Some 50) (VString "exponential")) (-1) 0%nat);
    [reflexivity|lia].
Defined.

Lemma total_sleep_failing_trace_S m d n :
  total_sleep (failing_trace m d (S n)) = d * m + total_sleep (failing_trace m (d * m) n).
Proof. by rewrite failing_trace_S. Qed.

Lemma total_sleep_fixed d n : total_sleep (failing_trace 1 d n) = d * Z.of_nat n.
Proof.
  revert d. induction n as [|n IH]; intros d; [cbn; lia|].
  rewrite total_sleep_failing_trace_S, IH. lia.
Qed.

Lemma total_sleep_exponential d n :
  total_sleep (failing_trace 2 d n) = d * (2 ^ Z.of_nat (S n) - 2).
Proof.
  revert d. induction n as [|n IH]; intros d; [cbn; lia|].
  rewrite total_sleep_failing_trace_S, IH.
  rewrite (Nat2Z.inj_succ (S n)), (Z.pow_succ_r _ (Z.of_nat (S n))) by lia. lia.
Qed.

(** X15: for [0 <= retries = r < 2^53] and delays that stay finite, a
    run with [n] invocations sleeps [d * (n - 1)] in all, and with
    backoff ['exponential'] [d * (2^n - 2)], where [d] is the configured
    delay. *)
Theorem retry_total_sleep {St} (fn : St → outcome * St) (opts : options) (r : Z)
    (s s' : St) (o : outcome) (tr : list event) :
  retries opts = Some r →
  0 ≤ r →
  countable r →
  finite (default 2000 (delay opts) * backoff_factor (backoff opts) ^ r) →
  waitWithRetry fn opts s = Some (o, s', tr) →
  total_sleep tr
  = if strict_equals_string (backoff opts) "exponential"
    then default 2000 (delay opts) * (2 ^ Z.of_nat (invocations tr) - 2)
    else default 2000 (delay opts) * (Z.of_nat (invocations tr) - 1).
Proof.
  intros Hopts Hr _ _ Hrun. unfold waitWithRetry in Hrun. rewrite Hopts in Hrun.
  cbn [from_option id] in Hrun.
  destruct (while_loop_run fn _ _ _ _ _ _ _ _ _ _ Hr Hrun)
    as (n & xs & final & Hn & _ & _ & -> & _).
  rewrite backoff_factor_default, invocations_failing_trace.
  replace (S (n - 1)) with n by lia. unfold backoff_factor.
  destruct (strict_equals_string (backoff opts) "exponential").
  - rewrite total_sleep_exponential. by replace (S (n - 1)) with n by lia.
  - rewrite total_sleep_fixed. f_equal. lia.
Qed.

Lemma retry_total_sleep_witness :
  retries (mkOptions (Some 3) (Some 100) (VString "exponential")) = Some 3 ∧
  0 ≤ 3 ∧
  countable 3 ∧
  finite (default 2000 (Some 100) * backoff_factor (VString "exponential") ^ 3) ∧
  waitWithRetry third_time_lucky (mkOptions (Some 3) (Some 100) (VString "exponential"))
    0%nat
  = Some (Returned (VString "success"), 3%nat, [Invoke; Sleep 200; Invoke; Sleep 400; Invoke])
  ∧ total_sleep [Invoke; Sleep 200; Invoke; Sleep 400; Invoke]
    = if strict_equals_string (VString "exponential") "exponential"
      then default 2000 (Some 100)
           * (2 ^ Z.of_nat (invocations [Invoke; Sleep 200; Invoke; Sleep 400; Invoke]) - 2)
      else default 2000 (Some 100)
           * (Z.of_nat (invocations [Invoke; Sleep 200; Invoke; Sleep 400; Invoke]) - 1).
Proof.
  assert (countable 3) as Hc by (by vm_compute).
  assert (finite (default 2000 (Some 100) * backoff_factor (VString "exponential") ^ 3))
    as Hf by (by vm_compute).
  split; [reflexivity|]. split; [lia|]. split; [exact Hc|]. split; [exact Hf|].
  split; [reflexivity|].
  apply (retry_total_sleep third_time_lucky
           (mkOptions (Some 3) (Some 100) (VString "exponential")) 3 0%nat 3%nat
           (Returned (VString "success")) [Invoke; Sleep 200; Invoke; Sleep 400; Invoke]);
    [reflexivity|lia|exact Hc|exact Hf|reflexivity].
Defined.

Lemma last_fmap_seq (g : nat → Z) (k : nat) :
  last (g <$> seq 1 (S k)) = Some (g (S k)).
Proof. rewrite seq_S, fmap_app. apply last_snoc. Qed.

(** X16: the [finalDelay] of the [RetryError] is the delay of the last
    sleep that took place (the delay is not scaled once more after the
    last attempt); with [retries = 0] there is no sleep and
    [finalDelay] is the configured delay. *)
Theorem final_delay_is_last_sleep {St} (fn : St → outcome * St) (opts : options)
    (r : Z) (s s' : St) (e : RetryErrorObj) (tr : list event) :
  retries opts = Some r →
  0 ≤ r →
  waitWithRetry fn opts s = Some (Threw (VRetryError e), s', tr) →
  (r = 0 → sleeps tr = [] ∧ finalDelay e = default 2000 (delay opts))
  ∧ (0 < r → last (sleeps tr) = Some (finalDelay e)).
Proof.
  intros Hopts Hr Hrun. unfold waitWithRetry in Hrun. rewrite Hopts in Hrun.
  cbn [from_option id] in Hrun.
  destruct (while_loop_run fn _ _ _ _ _ _ _ _ _ _ Hr Hrun)
    as (n & xs & final & Hn & _ & _ & -> & Ho).
  destruct final as [v|x]; [done|]. destruct Ho as [Hall Ho]. symmetry in Ho.
  apply throw_RetryError_inv in Ho as (_ & _ & ->).
  rewrite sleeps_failing_trace. split.
  - intros ->. assert (n = 1%nat) as -> by lia. split; [done|]. cbn. lia.
  - intros Hpos. assert (n - 1 = S (n - 2))%nat as -> by lia.
    by rewrite last_fmap_seq.
Qed.

Lemma final_delay_is_last_sleep_witness :
  retries (mkOptions (Some 2) (Some 100) (VString "exponential")) = Some 2 ∧
  0 ≤ 2 ∧
  waitWithRetry (rejecting (VString "permanent"))
    (mkOptions (Some 2) (Some 100) (VString "exponential")) 0%nat
  = Some (Threw (VRetryError
                   (mkRetryError "Retry failed after 3 attempts" "RetryError"
                      (VError "Error" "permanent") 3 400)), 3%nat,
          [Invoke; Sleep 200; Invoke; Sleep 400; Invoke]) ∧
  (2 = 0 → sleeps [Invoke; Sleep 200; Invoke; Sleep 400; Invoke] = []
           ∧ finalDelay (mkRetryError "Retry failed after 3 attempts" "RetryError"
                           (VError "Error" "permanent") 3 400)
             = default 2000 (Some 100))
  ∧ (0 < 2 → last (sleeps [Invoke; Sleep 200; Invoke; Sleep 400; Invoke])
             = Some (finalDelay (mkRetryError "Retry failed after 3 attempts" "RetryError"
                                   (VError "Error" "permanent") 3 400))).
Proof.
  split; [reflexivity|]. split; [lia|]. split; [reflexivity|].
  apply (final_delay_is_last_sleep (rejecting (VString "permanent"))
           (mkOptions (Some 2) (Some 100) (VString "exponential")) 2 0%nat 3%nat
           (mkRetryError "Retry failed after 3 attempts" "RetryError"
              (VError "Error" "permanent") 3 400)
           [Invoke; Sleep 200; Invoke; Sleep 400; Invoke]);
    [reflexivity|lia|reflexivity].
Defined.

End RetryMore.

(** ** More about the timeout registry *)

Module RegistryMore.
Import Registry RegistryFacts.

(** *** Induction over the loop of the ['exit'] handler *)

Lemma for_of_keys_teardown_ind (P : state → Prop) ids :
  (∀ st id e,
     activeTimeouts st !! id = Some e → P st →
     P (without e (settle (controller e) (Rejected (exiting id)) (promises st)) Cleared st)) →
  ∀ st, P st → P (for_of_keys (guarded teardown_entry) ids st).2.
Proof.
  intros Hstep. induction ids as [|id ids IH]; intros st HP; [done|].
  cbn [for_of_keys]. unfold mbind at 1 2, M_bind, activeTimeouts_get.
  destruct (activeTimeouts st !! id) as [e|] eqn:Hid; [|by apply IH].
  rewrite guarded_teardown_entry. apply IH. by apply Hstep.
Qed.

(** *** A delay from its creation to its end *)

Lemma settle_last ps s : settle (length ps) s (ps ++ [Pending]) = ps ++ [s].
Proof.
  unfold settle. rewrite list_lookup_middle by done.
  rewrite insert_app_r_alt by done. by rewrite Nat.sub_diag.
Qed.

Lemma set_status_last ts cb ms s :
  set_status (length ts) s (ts ++ [mkTimer cb ms Scheduled]) = ts ++ [mkTimer cb ms s].
Proof.
  unfold set_status. rewrite list_lookup_middle by done. cbn.
  rewrite insert_app_r_alt by done. by rewrite Nat.sub_diag.
Qed.

(** X6: cancelling a delay that has just been created under an unused
    identifier returns [true] and leaves the registry as it was before
    the creation; all that remains is the rejected promise and the
    cleared timer. *)
Theorem create_then_cancel (st : state) (ms : Z) (id : string) (reason : option string) :
  activeTimeouts st !! id = None →
  cancelWait id reason (step (Create ms id) st)
  = (Normal true,
     mkState (activeTimeouts st)
       (promises st ++ [Rejected (VTimeoutError (new_TimeoutError id reason))])
       (timers st ++ [mkTimer (CompletedCallback (length (promises st)) id
                                 (mkCleanup (length (timers st)) id)) ms Cleared])
       (console st)).
Proof.
  intros Hid. cbn [step]. rewrite waitWithId_eq. cbn [snd].
  erewrite cancelWait_present by apply lookup_insert_eq.
  unfold without. cbn.
  by rewrite delete_insert_id, settle_last, set_status_last.
Qed.

Lemma create_then_cancel_witness :
  activeTimeouts one_delay !! "b" = None ∧
  cancelWait "b" (Some "Cancel first") (step (Create 200 "b") one_delay)
  = (Normal true,
     mkState (activeTimeouts one_delay)
       (promises one_delay
        ++ [Rejected (VTimeoutError (new_TimeoutError "b" (Some "Cancel first")))])
       (timers one_delay
        ++ [mkTimer (CompletedCallback (length (promises one_delay)) "b"
                       (mkCleanup (length (timers one_delay)) "b")) 200 Cleared])
       (console one_delay)).
Proof.
  split; [reflexivity|].
  apply (create_then_cancel one_delay 200 "b" (Some "Cancel first")). reflexivity.
Defined.

(** X7: when the timer of a delay that has just been created under an
    unused identifier fires, the promise is fulfilled with
    [Completed timeout ID: {id}] and the registry is as it was before
    the creation. *)
Theorem create_then_fire (st : state) (ms : Z) (id : string) :
  activeTimeouts st !! id = None →
  fire (length (timers st)) (step (Create ms id) st)
  = (Normal (),
     mkState (activeTimeouts st)
       (promises st ++ [Fulfilled (VString ("Completed timeout ID: " +:+ id))])
       (timers st ++ [mkTimer (CompletedCallback (length (promises st)) id
                                 (mkCleanup (length (timers st)) id)) ms Fired])
       (console st)).
Proof.
  intros Hid. cbn [step]. rewrite waitWithId_eq. cbn [snd].
  unfold fire. cbn [timers]. rewrite list_lookup_middle by done.
  cbn [status tm_callback call_callback].
  unfold call_cleanup, mbind, M_bind, resolve, clearTimeout, activeTimeouts_delete.
  cbn. rewrite delete_insert_id, settle_last, set_status_last by done.
  do 2 f_equal. eapply set_status_retired; [by apply list_lookup_middle|done].
Qed.

Lemma create_then_fire_witness :
  activeTimeouts one_delay !! "b" = None ∧
  fire (length (timers one_delay)) (step (Create 100 "b") one_delay)
  = (Normal (),
     mkState (activeTimeouts one_delay)
       (promises one_delay ++ [Fulfilled (VString ("Completed timeout ID: " +:+ "b"))])
       (timers one_delay
        ++ [mkTimer (CompletedCallback (length (promises one_delay)) "b"
                       (mkCleanup (length (timers one_delay)) "b")) 100 Fired])
       (console one_delay)).
Proof.
  split; [reflexivity|].
  apply (create_then_fire one_delay 100 "b"). reflexivity.
Defined.

(** X8: when the timer set by [updateWait] fires, the promise that
    [updateWait] returned is fulfilled with [Updated timeout ID: {id}]
    and the identifier is removed, while the promise of the entry that
    was replaced is still pending. *)
Theorem update_then_fire (st : state) (id : string) (e : entry) (newMs : Z) :
  reachable st →
  activeTimeouts st !! id = Some e →
  ∃ p' st' st'',
    updateWait id newMs st = (Normal p', st')
    ∧ fire (length (timers st)) st' = (Normal (), st'')
    ∧ promises st'' !! p' = Some (Fulfilled (VString ("Updated timeout ID: " +:+ id)))
    ∧ promises st'' !! controller e = Some Pending
    ∧ activeTimeouts st'' = delete id (activeTimeouts st)
    ∧ console st'' = console st.
Proof.
  intros Hr Hid. pose proof (reachable_wf st Hr) as Hwf.
  destruct (wf_entry st Hwf _ _ Hid) as (Hcl & Hp & _).
  pose proof (lookup_lt_Some _ _ _ Hp) as Hlt.
  rewrite (updateWait_present _ _ _ e) by done. cbn zeta.
  eexists _, _, _. split; [done|].
  unfold fire. cbn [timers without].
  rewrite <- (length_set_status (cl_timeout (cleanup e)) Cleared (timers st)) at 1.
  rewrite list_lookup_middle by done.
  cbn [status tm_callback call_callback].
  unfold mbind, M_bind, resolve, activeTimeouts_delete. cbn.
  split; [done|]. cbn. rewrite settle_last. split; [by apply list_lookup_middle|].
  split; [by rewrite lookup_app_l|]. split; [|done].
  by rewrite Hcl, delete_insert_eq, delete_delete_eq.
Qed.

Lemma update_then_fire_witness :
  reachable one_delay ∧
  activeTimeouts one_delay !! "a" = Some (mkEntry 0 (mkCleanup 0 "a")) ∧
  ∃ p' st' st'',
    updateWait "a" 100 one_delay = (Normal p', st')
    ∧ fire (length (timers one_delay)) st' = (Normal (), st'')
    ∧ promises st'' !! p' = Some (Fulfilled (VString ("Updated timeout ID: " +:+ "a")))
    ∧ promises st'' !! controller (mkEntry 0 (mkCleanup 0 "a")) = Some Pending
    ∧ activeTimeouts st'' = delete "a" (activeTimeouts one_delay)
    ∧ console st'' = console one_delay.
Proof.
  split; [apply reachable_one_delay|]. split; [apply one_delay_entry|].
  apply (update_then_fire one_delay "a" (mkEntry 0 (mkCleanup 0 "a")) 100);
    [apply reachable_one_delay|apply one_delay_entry].
Defined.

(** X9: in every reachable state, when the timer of a registered delay
    fires, the promise of the delay is fulfilled with a string that
    ends in its identifier, [Completed timeout ID: {id}] or
    [Updated timeout ID: {id}]; the identifier is removed, the timer has
    fired, and nothing is written to the console. *)
Theorem natural_completion (st : state) (id : string) (e : entry) :
  reachable st →
  activeTimeouts st !! id = Some e →
  ∃ st' msg,
    fire (cl_timeout (cleanup e)) st = (Normal (), st')
    ∧ (msg = "Completed timeout ID: " +:+ id ∨ msg = "Updated timeout ID: " +:+ id)
    ∧ promises st' !! controller e = Some (Fulfilled (VString msg))
    ∧ activeTimeouts st' = delete id (activeTimeouts st)
    ∧ (∃ t, timers st' !! cl_timeout (cleanup e) = Some t ∧ status t = Fired)
    ∧ console st' = console st.
Proof.
  intros Hr Hid. pose proof (reachable_wf st Hr) as Hwf.
  destruct (wf_entry st Hwf _ _ Hid) as (Hcl & Hp & t & Ht & Hs & Hcb & _).
  destruct (fire_scheduled st _ t Hwf Ht Hs) as (e' & He' & _ & ->).
  rewrite Hcb in He'. assert (e' = e) as -> by congruence.
  assert (∃ msg, completion_message (tm_callback t) = VString msg
                 ∧ (msg = "Completed timeout ID: " +:+ id
                    ∨ msg = "Updated timeout ID: " +:+ id)) as (msg & -> & Hmsg).
  { destruct (tm_callback t); cbn in *; subst; eauto. }
  eexists _, msg. split; [done|]. split; [done|]. cbn.
  split; [by apply settle_lookup_pending|]. split; [by rewrite Hcl|].
  split; [|done]. eexists. split; [by apply set_status_lookup_scheduled|done].
Qed.

Lemma natural_completion_witness :
  reachable one_delay ∧
  activeTimeouts one_delay !! "a" = Some (mkEntry 0 (mkCleanup 0 "a")) ∧
  ∃ st' msg,
    fire (cl_timeout (cleanup (mkEntry 0 (mkCleanup 0 "a")))) one_delay = (Normal (), st')
    ∧ (msg = "Completed timeout ID: " +:+ "a" ∨ msg = "Updated timeout ID: " +:+ "a")
    ∧ promises st' !! controller (mkEntry 0 (mkCleanup 0 "a"))
      = Some (Fulfilled (VString msg))
    ∧ activeTimeouts st' = delete "a" (activeTimeouts one_delay)
    ∧ (∃ t, timers st' !! cl_timeout (cleanup (mkEntry 0 (mkCleanup 0 "a"))) = Some t
            ∧ status t = Fired)
    ∧ console st' = console one_delay.
Proof.
  split; [apply reachable_one_delay|]. split; [apply one_delay_entry|].
  apply (natural_completion one_delay "a" (mkEntry 0 (mkCleanup 0 "a")));
    [apply reachable_one_delay|apply one_delay_entry].
Defined.

(** *** Delays do not disturb one another *)

Lemma frame_without st id e id' e' ps s :
  wf st →
  activeTimeouts st !! id = Some e →
  activeTimeouts st !! id' = Some e' →
  id' ≠ id →
  (∀ q, q ≠ controller e' → ps !! q = promises st !! q) →
  activeTimeouts (without e' ps s st) !! id = Some e
  ∧ promises (without e' ps s st) !! controller e = Some Pending
  ∧ timers (without e' ps s st) !! cl_timeout (cleanup e)
    = timers st !! cl_timeout (cleanup e).
Proof.
  intros Hwf Hid Hid' Hne Hps.
  destruct (wf_entry st Hwf _ _ Hid) as (_ & Hp & _).
  destruct (wf_entry st Hwf _ _ Hid') as (Hcl' & _).
  cbn. split; [|split].
  - rewrite Hcl'. by rewrite lookup_delete_ne.
  - rewrite Hps; [done|]. intros Heq.
    by apply Hne, (wf_controller st Hwf id' id e' e).
  - apply set_status_lookup_ne. intros Heq.
    by apply Hne, (wf_timeout_inj st id' id e' e).
Qed.

(** X10: in every reachable state, an action that does not concern a
    registered delay (a call with another identifier, or the firing of
    another timer) leaves the entry of the delay in place, its promise
    pending and its timer as it is. *)
Theorem other_delays_untouched (st : state) (id : string) (e : entry) (a : action) :
  reachable st →
  activeTimeouts st !! id = Some e →
  enabled a st →
  ¬ concerns id e a →
  activeTimeouts (step a st) !! id = Some e
  ∧ promises (step a st) !! controller e = Some Pending
  ∧ timers (step a st) !! cl_timeout (cleanup e) = timers st !! cl_timeout (cleanup e).
Proof.
  intros Hr Hid Hen Hcon. pose proof (reachable_wf st Hr) as Hwf.
  destruct (wf_entry st Hwf _ _ Hid) as (Hcl & Hp & t & Ht & Hs & _).
  pose proof (lookup_lt_Some _ _ _ Hp) as Hplt.
  pose proof (lookup_lt_Some _ _ _ Ht) as Htlt.
  destruct a as [ms id'|id' reason|id' newMs|h|]; cbn in Hcon; cbn [step].
  - rewrite waitWithId_eq. cbn.
    by rewrite lookup_insert_ne, !lookup_app_l.
  - destruct (activeTimeouts st !! id') as [e'|] eqn:Hid'.
    + rewrite (cancelWait_present _ _ _ e') by done. cbn [snd].
      eapply frame_without; [done..|]. intros q Hq. by apply settle_lookup_ne.
    + by rewrite cancelWait_absent.
  - destruct (activeTimeouts st !! id') as [e'|] eqn:Hid'.
    + rewrite (updateWait_present _ _ _ e') by done. cbn [snd]. cbn zeta.
      destruct (frame_without st id e id' e' (promises st) Cleared Hwf Hid Hid' Hcon)
        as (Hm & _ & Hts); [done|].
      cbn [activeTimeouts promises timers]. split; [|split].
      * by rewrite lookup_insert_ne.
      * cbn. by rewrite lookup_app_l.
      * rewrite lookup_app_l; [done|]. cbn. by rewrite length_set_status.
    + by rewrite updateWait_absent.
  - destruct (timers st !! h) as [t'|] eqn:Ht'.
    2:{ rewrite fire_retired; [done|]. congruence. }
    destruct (status t') eqn:Hs'.
    2,3: rewrite fire_retired; [done|]; congruence.
    destruct (fire_scheduled st h t' Hwf Ht' Hs') as (e' & He' & Hh & ->). cbn [snd].
    eapply frame_without; [done..| |].
    + intros Heq. rewrite Heq in He'. apply Hcon. congruence.
    + intros q Hq. by apply settle_lookup_ne.
  - done.
Qed.

Lemma other_delays_untouched_witness :
  reachable one_delay ∧
  activeTimeouts one_delay !! "a" = Some (mkEntry 0 (mkCleanup 0 "a")) ∧
  enabled (Cancel "b" None) one_delay ∧
  ¬ concerns "a" (mkEntry 0 (mkCleanup 0 "a")) (Cancel "b" None) ∧
  activeTimeouts (step (Cancel "b" None) one_delay) !! "a"
  = Some (mkEntry 0 (mkCleanup 0 "a"))
  ∧ promises (step (Cancel "b" None) one_delay) !! controller (mkEntry 0 (mkCleanup 0 "a"))
    = Some Pending
  ∧ timers (step (Cancel "b" None) one_delay) !! cl_timeout (cleanup (mkEntry 0 (mkCleanup 0 "a")))
    = timers one_delay !! cl_timeout (cleanup (mkEntry 0 (mkCleanup 0 "a"))).
Proof.
  split; [apply reachable_one_delay|]. split; [apply one_delay_entry|].
  split; [exact I|]. split; [discriminate|].
  apply (other_delays_untouched one_delay "a" (mkEntry 0 (mkCleanup 0 "a"))
           (Cancel "b" None));
    [apply reachable_one_delay|apply one_delay_entry|exact I|discriminate].
Defined.

(** *** The identifiers in the registry *)

(** X11: in every reachable state, [waitWithId] adds its identifier to
    the registered ones, [cancelWait] takes exactly its identifier away
    (nothing when it is not registered), [updateWait] leaves the set of
    registered identifiers as it is, a timer that fires adds none, and
    the ['exit'] handler leaves none. *)
Theorem registered_identifiers (st : state) :
  reachable st →
  (∀ ms id, dom (activeTimeouts (step (Create ms id) st)) = {[id]} ∪ dom (activeTimeouts st))
  ∧ (∀ id reason,
       dom (activeTimeouts (step (Cancel id reason) st)) = dom (activeTimeouts st) ∖ {[id]})
  ∧ (∀ id newMs, dom (activeTimeouts (step (Update id newMs) st)) = dom (activeTimeouts st))
  ∧ (∀ h, dom (activeTimeouts (step (Fire h) st)) ⊆ dom (activeTimeouts st))
  ∧ dom (activeTimeouts (step Exit st)) = ∅.
Proof.
  intros Hr. pose proof (reachable_wf st Hr) as Hwf. split_and!.
  - intros ms id. cbn [step]. rewrite waitWithId_eq. cbn. apply dom_insert_L.
  - intros id reason. cbn [step].
    destruct (activeTimeouts st !! id) as [e|] eqn:Hid.
    + destruct (wf_entry st Hwf _ _ Hid) as (Hcl & _).
      rewrite (cancelWait_present _ _ _ e) by done. cbn. rewrite Hcl. apply dom_delete_L.
    + rewrite cancelWait_absent by done. cbn.
      apply not_elem_of_dom in Hid. symmetry. by apply difference_disjoint_L, disjoint_singleton_r.
  - intros id newMs. cbn [step].
    destruct (activeTimeouts st !! id) as [e|] eqn:Hid.
    + destruct (wf_entry st Hwf _ _ Hid) as (Hcl & _).
      rewrite (updateWait_present _ _ _ e) by done. cbn.
      rewrite Hcl, insert_delete_eq. apply dom_insert_lookup_L. by rewrite Hid.
    + by rewrite updateWait_absent.
  - intros h. cbn [step]. destruct (timers st !! h) as [t|] eqn:Ht.
    2:{ rewrite fire_retired; [done|]. congruence. }
    destruct (status t) eqn:Hs.
    2,3: rewrite fire_retired; [done|]; congruence.
    destruct (fire_scheduled st h t Hwf Ht Hs) as (e & _ & _ & ->). cbn.
    rewrite dom_delete_L. apply subseteq_difference_l. done.
  - cbn [step].
    destruct (exit_handler_teardown st Hwf) as (st' & -> & _ & _ & [Hempty _] & _).
    cbn. rewrite Hempty. apply dom_empty_L.
Qed.

Lemma registered_identifiers_witness :
  reachable one_delay ∧
  (∀ ms id, dom (activeTimeouts (step (Create ms id) one_delay))
            = {[id]} ∪ dom (activeTimeouts one_delay))
  ∧ (∀ id reason,
       dom (activeTimeouts (step (Cancel id reason) one_delay))
       = dom (activeTimeouts one_delay) ∖ {[id]})
  ∧ (∀ id newMs, dom (activeTimeouts (step (Update id newMs) one_delay))
                 = dom (activeTimeouts one_delay))
  ∧ (∀ h, dom (activeTimeouts (step (Fire h) one_delay)) ⊆ dom (activeTimeouts one_delay))
  ∧ dom (activeTimeouts (step Exit one_delay)) = ∅.
Proof.
  split; [apply reachable_one_delay|].
  apply (registered_identifiers one_delay). apply reachable_one_delay.
Defined.

(** *** After the ['exit'] handler *)

(** X12: in every reachable state, the ['exit'] handler leaves no timer
    scheduled; running the handler a second time changes nothing, and
    every [cancelWait] afterwards returns [false]. *)
Theorem nothing_left_after_exit (st : state) :
  reachable st →
  ∃ st',
    exit_handler st = (Normal (), st')
    ∧ (∀ h t, timers st' !! h = Some t → status t ≠ Scheduled)
    ∧ exit_handler st' = (Normal (), st')
    ∧ ∀ id reason, cancelWait id reason st' = (Normal false, st').
Proof.
  intros Hr. pose proof (reachable_wf st Hr) as Hwf.
  destruct (exit_handler_teardown st Hwf) as (st' & Hrun & Hwf' & _ & [Hempty _] & _).
  exists st'. split; [done|]. split; [|split].
  - intros h t Ht Hs. destruct (wf_timer st' Hwf' _ _ Ht Hs) as (e & He & _).
    by rewrite Hempty, lookup_empty in He.
  - unfold exit_handler, exit_handler_with, for_of_activeTimeouts.
    by rewrite Hempty, map_to_list_empty.
  - intros id reason. apply cancelWait_absent. by rewrite Hempty.
Qed.

Lemma nothing_left_after_exit_witness :
  reachable one_delay ∧
  ∃ st',
    exit_handler one_delay = (Normal (), st')
    ∧ (∀ h t, timers st' !! h = Some t → status t ≠ Scheduled)
    ∧ exit_handler st' = (Normal (), st')
    ∧ ∀ id reason, cancelWait id reason st' = (Normal false, st').
Proof.
  split; [apply reachable_one_delay|].
  apply (nothing_left_after_exit one_delay). apply reachable_one_delay.
Defined.

(** *** What promises are settled with *)

Lemma new_TimeoutError_message id reason : te_message (new_TimeoutError id reason) ≠ "".
Proof. destruct reason as [r|]; cbn; [case_decide|]; done. Qed.

Lemma Forall_settle (P : promise_state → Prop) p s ps :
  Forall P ps → P s → Forall P (settle p s ps).
Proof.
  intros Hps Hs. unfold settle. destruct (ps !! p) as [[]|]; try done.
  by apply Forall_insert.
Qed.

Lemma settled_by_library_reject id reason :
  settled_by_library (Rejected (VTimeoutError (new_TimeoutError id reason))).
Proof. eexists. split; [done|]. do 2 (split; [done|]). apply new_TimeoutError_message. Qed.

Lemma settled_by_library_step a st :
  Forall settled_by_library (promises st) →
  Forall settled_by_library (promises (step a st)).
Proof.
  intros Hst. destruct a as [ms id|id reason|id newMs|h|]; cbn [step].
  - rewrite waitWithId_eq. cbn. apply Forall_app. split; [done|]. by constructor.
  - destruct (activeTimeouts st !! id) as [e|] eqn:Hid.
    + rewrite (cancelWait_present _ _ _ e) by done. cbn.
      apply Forall_settle; [done|]. apply settled_by_library_reject.
    + by rewrite cancelWait_absent.
  - destruct (activeTimeouts st !! id) as [e|] eqn:Hid.
    + rewrite (updateWait_present _ _ _ e) by done. cbn.
      apply Forall_app. split; [done|]. by constructor.
    + by rewrite updateWait_absent.
  - unfold fire. destruct (timers st !! h) as [t|]; [|done].
    destruct (status t); [|done..].
    destruct (tm_callback t); cbn; (apply Forall_settle; [done|]); cbn; eauto.
  - apply (for_of_keys_teardown_ind (λ st', Forall settled_by_library (promises st')));
      [|done].
    intros st' id e _ Hst'. cbn. apply Forall_settle; [done|].
    apply settled_by_library_reject.
Qed.

(** X13: in every reachable state, every promise the library has made is
    pending, or fulfilled with one of the strings
    [Completed timeout ID: {id}] and [Updated timeout ID: {id}], or
    rejected with a [TimeoutError] whose [code] is ['ETIMEOUT'] and
    whose message is not empty. *)
Theorem settlements_of_the_library (st : state) (p : nat) (s : promise_state) :
  reachable st →
  promises st !! p = Some s →
  settled_by_library s.
Proof.
  intros Hr. revert p s. apply Forall_lookup.
  induction Hr as [|a st Hr IH Hen]; [constructor|].
  by apply settled_by_library_step.
Qed.

Lemma settlements_of_the_library_witness :
  reachable (step (Cancel "a" (Some "")) one_delay) ∧
  promises (step (Cancel "a" (Some "")) one_delay) !! 0%nat
  = Some (Rejected (VTimeoutError (new_TimeoutError "a" (Some "")))) ∧
  settled_by_library (Rejected (VTimeoutError (new_TimeoutError "a" (Some "")))).
Proof.
  assert (reachable (step (Cancel "a" (Some "")) one_delay)) as Hr.
  { apply reachable_step; [apply reachable_one_delay|exact I]. }
  split; [exact Hr|]. split; [reflexivity|].
  apply (settlements_of_the_library (step (Cancel "a" (Some "")) one_delay) 0
           (Rejected (VTimeoutError (new_TimeoutError "a" (Some "")))));
    [exact Hr|reflexivity].
Defined.

End RegistryMore.

(** ** Facts about the plain delay *)

Module DelayFacts.
Import Registry RegistryFacts Delay.

Lemma consistent_initial : consistent initial.
Proof. split; [done|]. intros h t Ht. by destruct h. Qed.

Lemma consistent_step a st : consistent st → consistent (step a st).
Proof.
  intros [Hlen Hts]. destruct a as [ms|h]; cbn [step].
  - unfold wait, consistent. cbn. split; [by rewrite !length_app, Hlen|].
    intros h t [Hh|[Hh Ht]]%lookup_app_Some.
    + destruct (Hts h t Hh) as [Hp Hcases]. split; [done|].
      pose proof (lookup_lt_Some _ _ _ Hh) as Hlt.
      rewrite lookup_app_l by lia. done.
    + apply list_lookup_singleton_Some in Ht as [Hz <-]. cbn.
      assert (h = length (promises st)) as -> by lia.
      split; [done|]. left. split; [done|]. by apply list_lookup_middle.
  - unfold fire. destruct (timers st !! h) as [t|] eqn:Ht; [|done].
    destruct (status t) eqn:Hs; [|done..].
    destruct (Hts h t Ht) as [Hp [[_ Hpend]|[Hfired _]]]; [|congruence].
    unfold consistent. cbn. split; [by rewrite length_settle, length_insert|].
    intros h' t' Ht'. destruct (decide (h = h')) as [<-|Hne].
    + rewrite list_lookup_insert_eq in Ht' by (by eapply lookup_lt_Some).
      injection Ht' as <-. cbn. split; [done|]. right. split; [done|].
      rewrite Hp. by apply settle_lookup_pending.
    + rewrite list_lookup_insert_ne in Ht' by done.
      destruct (Hts h' t' Ht') as [Hp' Hcases]. split; [done|].
      by rewrite settle_lookup_ne by lia.
Qed.

Lemma consistent_run acts : ∀ st, consistent st → consistent (run acts st).
Proof.
  induction acts as [|a acts IH]; intros st Hst; [done|].
  apply IH. by apply consistent_step.
Qed.

(** X14: [wait(ms)] returns a new pending promise whose timer is
    scheduled for [ms].  In every state reached by calls of [wait] and
    firings of timers, a promise made by [wait] is pending or fulfilled
    with [undefined], never rejected; no timer is ever cleared; a
    pending promise has a scheduled timer, and when a scheduled timer
    fires its promise is fulfilled with [undefined]. *)
Theorem wait_resolves_and_never_rejects (acts : list action) :
  (∀ ms,
     promises (wait ms (run acts initial)).2 !! (wait ms (run acts initial)).1
     = Some Pending
     ∧ promises (run acts initial) !! (wait ms (run acts initial)).1 = None
     ∧ ∃ h, timers (wait ms (run acts initial)).2 !! h
            = Some (mkTimer (wait ms (run acts initial)).1 ms Scheduled))
  ∧ (∀ p s, promises (run acts initial) !! p = Some s →
            s = Pending ∨ s = Fulfilled VUndefined)
  ∧ (∀ h t, timers (run acts initial) !! h = Some t → status t ≠ Cleared)
  ∧ (∀ p, promises (run acts initial) !! p = Some Pending →
          ∃ h t, timers (run acts initial) !! h = Some t
                 ∧ promise t = p ∧ status t = Scheduled)
  ∧ (∀ h t, timers (run acts initial) !! h = Some t →
            status t = Scheduled →
            promises (fire h (run acts initial)) !! promise t
            = Some (Fulfilled VUndefined)).
Proof.
  pose proof (consistent_run acts initial consistent_initial) as Hst.
  set (st := run acts initial) in *.
  destruct Hst as [Hlen Hts]. split_and!.
  - intros ms. unfold wait. cbn. split; [by apply list_lookup_middle|].
    split; [by apply lookup_ge_None|].
    exists (length (timers st)). by apply list_lookup_middle.
  - intros p s Hp. pose proof (lookup_lt_Some _ _ _ Hp) as Hlt.
    destruct (lookup_lt_is_Some_2 (timers st) p) as [t Ht]; [lia|].
    destruct (Hts p t Ht) as [_ [[_ Hs]|[_ Hs]]]; rewrite Hs in Hp;
      injection Hp as <-; eauto.
  - intros h t Ht. destruct (Hts h t Ht) as [_ [[Hs _]|[Hs _]]]; congruence.
  - intros p Hp. pose proof (lookup_lt_Some _ _ _ Hp) as Hlt.
    destruct (lookup_lt_is_Some_2 (timers st) p) as [t Ht]; [lia|].
    destruct (Hts p t Ht) as [Hpt [[Hs _]|[_ Hs]]]; [by eauto|congruence].
  - intros h t Ht Hs. destruct (Hts h t Ht) as [Hp [[_ Hpend]|[Hfired _]]]; [|congruence].
    unfold fire. rewrite Ht, Hs. cbn. rewrite Hp. by apply settle_lookup_pending.
Qed.

End DelayFacts.
